(** * EV hub optimisation: the optimisation and evaluation engine

    A shallow embedding of [src/src/optimization.py]: the weighted
    K-Means wrapper, the population-weighted baseline generator with its
    rejection sampler, the coverage evaluator and the A/B simulation.

    Conventions of the embedding.
    - A Python/NumPy double is a value of [fl]: a rational, one of the two
      infinities, or NaN.  Finite arithmetic is exact (rounding is not
      modelled, and neither is the sign of zero); the special values
      follow IEEE 754, which is what the NumPy and pandas operations of
      the module do (they warn on a division by zero, they do not raise).
    - A Python exception is a value of [exn]; fallible code returns a
      [result].
    - The libraries the module calls are outside the repository.  Shapely
      and GeoPandas geometry is observed through the record [polygon];
      the random generators are sequences of draws; scikit-learn's KMeans
      is an interface with its contract ([KMeansModel]).  The reprojection
      between reference systems happens inside the area observations of
      [polygon]; the test on a missing [crs] changes no metric and is
      left out. *)

From Stdlib Require Import QArith Qcanon Qcabs Lqa.
From stdpp Require Import base decidable option numbers list strings gmap.

Local Open Scope Qc_scope.

(** ** Doubles *)

Module Float.

Inductive fl : Type := NaN | NInf | PInf | Fin (q : Qc).

#[global] Instance fl_eq_dec : EqDecision fl.
Proof. solve_decision. Defined.

Definition Qcltb (x y : Qc) : bool :=
  match x ?= y with Lt => true | _ => false end.
Definition Qcleb (x y : Qc) : bool :=
  match x ?= y with Gt => false | _ => true end.
Definition Qceqb (x y : Qc) : bool :=
  match x ?= y with Eq => true | _ => false end.

Definition of_Z (n : Z) : fl := Fin (Q2Qc (inject_Z n)).
Definition of_nat (n : nat) : fl := of_Z (Z.of_nat n).
Definition half : Qc := Q2Qc (1 # 2).

Definition fneg (a : fl) : fl :=
  match a with
  | NaN => NaN | NInf => PInf | PInf => NInf | Fin x => Fin (- x)
  end.

Definition fadd (a b : fl) : fl :=
  match a, b with
  | NaN, _ | _, NaN => NaN
  | PInf, NInf | NInf, PInf => NaN
  | PInf, _ | _, PInf => PInf
  | NInf, _ | _, NInf => NInf
  | Fin x, Fin y => Fin (x + y)
  end.

Definition fsub (a b : fl) : fl := fadd a (fneg b).

(** The sign of a finite value, as a comparison with zero. *)
Definition sgn (x : Qc) : comparison := x ?= 0.

Definition inf_of (c : comparison) : fl :=
  match c with Lt => NInf | Eq => NaN | Gt => PInf end.

Definition cmul (c d : comparison) : comparison :=
  match c, d with
  | Eq, _ | _, Eq => Eq
  | Lt, Lt | Gt, Gt => Gt
  | _, _ => Lt
  end.

Definition fmul (a b : fl) : fl :=
  match a, b with
  | NaN, _ | _, NaN => NaN
  | Fin x, Fin y => Fin (x * y)
  | Fin x, PInf | PInf, Fin x => inf_of (sgn x)
  | Fin x, NInf | NInf, Fin x => inf_of (cmul Lt (sgn x))
  | PInf, PInf | NInf, NInf => PInf
  | PInf, NInf | NInf, PInf => NInf
  end.

Definition fdiv (a b : fl) : fl :=
  match a, b with
  | NaN, _ | _, NaN => NaN
  | Fin x, Fin y => if Qceqb y 0 then inf_of (sgn x) else Fin (x / y)
  | Fin _, (PInf | NInf) => Fin 0
  | PInf, Fin y => if Qcltb y 0 then NInf else PInf
  | NInf, Fin y => if Qcltb y 0 then PInf else NInf
  | (PInf | NInf), (PInf | NInf) => NaN
  end.

(** IEEE comparisons: every comparison with NaN is false. *)
Definition flt (a b : fl) : bool :=
  match a, b with
  | NaN, _ | _, NaN => false
  | _, NInf => false
  | NInf, _ => true
  | PInf, _ => false
  | Fin _, PInf => true
  | Fin x, Fin y => Qcltb x y
  end.
Definition fgt (a b : fl) : bool := flt b a.
Definition feq (a b : fl) : bool :=
  match a, b with
  | NInf, NInf | PInf, PInf => true
  | Fin x, Fin y => Qceqb x y
  | _, _ => false
  end.

Definition isnan (a : fl) : bool := match a with NaN => true | _ => false end.
Definition isfinite (a : fl) : bool := match a with Fin _ => true | _ => false end.

Definition fabs (a : fl) : fl :=
  match a with
  | NaN => NaN | NInf | PInf => PInf | Fin x => Fin (Qcabs x)
  end.

(** [np.maximum] and [np.minimum]: NaN propagates. *)
Definition maximum (a b : fl) : fl :=
  match a, b with
  | NaN, _ | _, NaN => NaN
  | _, _ => if flt a b then b else a
  end.
Definition minimum (a b : fl) : fl :=
  match a, b with
  | NaN, _ | _, NaN => NaN
  | _, _ => if flt b a then b else a
  end.

(** [Series.fillna(v)] on one cell, [Series.clip(lo, hi)] on one cell. *)
Definition fillna (v a : fl) : fl := if isnan a then v else a.
Definition clip (lo hi a : fl) : fl := minimum (maximum a lo) hi.

(** [ndarray.sum()], [Series.sum()] (which skips NaN), [np.mean],
    [np.ones_like]. *)
Definition np_sum (l : list fl) : fl := foldl fadd (Fin 0) l.
Definition pd_sum (l : list fl) : fl :=
  np_sum (filter (fun a => isnan a = false) l).
Definition np_mean (l : list fl) : fl := fdiv (np_sum l) (of_nat (length l)).
Definition ones_like (l : list fl) : list fl := map (fun _ => Fin 1) l.

End Float.
Import Float.

(** ** Exceptions *)

Inductive exn : Type :=
| KeyError (key : string)
| ValueError (msg : string)
| IndexError (msg : string)
| AttributeError (msg : string).

Inductive result (A : Type) : Type :=
| Ok (a : A)
| Raise (e : exn).
Arguments Ok {A} a.
Arguments Raise {A} e.

#[global] Instance result_ret : MRet result := fun A a => Ok a.
#[global] Instance result_bind : MBind result := fun A B f m =>
  match m with Ok a => f a | Raise e => Raise e end.

Definition returned {A} (r : result A) : option A :=
  match r with Ok a => Some a | Raise _ => None end.
Definition raises {A} (r : result A) : Prop :=
  match r with Ok _ => False | Raise _ => True end.

(** ** Random generators

    A generator object is the sequence of doubles in [0, 1) it will
    produce together with the number of draws made so far; drawing
    advances the position, as the mutation of the Python object does. *)

Record generator : Type := { draws : nat -> Qc; pos : nat }.

Definition random (g : generator) : Qc * generator :=
  (draws g (pos g), {| draws := draws g; pos := S (pos g) |}).

(** [random.Random.uniform(a, b)] is [a + (b - a) * self.random()]. *)
Definition uniform (g : generator) (a b : Qc) : Qc * generator :=
  let '(u, g') := random g in (a + (b - a) * u, g').

(** [Generator.random(n)]: [n] draws, in order. *)
Fixpoint random_n (n : nat) (g : generator) : list Qc * generator :=
  match n with
  | O => ([], g)
  | S n =>
      let '(u, g1) := random g in
      let '(us, g2) := random_n n g1 in
      (u :: us, g2)
  end.

(** The two seeded constructors: [random.Random(seed)] (Mersenne Twister)
    and [np.random.default_rng(seed)] (PCG64).  The bit generators are
    not modelled: a seed determines the sequence, and the draws lie in
    [0, 1). *)
Class RandomSources : Type := {
  mt19937 : Z -> nat -> Qc;
  pcg64 : Z -> nat -> Qc;
  mt19937_range : forall s n, 0 <= mt19937 s n /\ mt19937 s n < 1;
  pcg64_range : forall s n, 0 <= pcg64 s n /\ pcg64 s n < 1
}.

(** What a call can observe of the process besides its arguments: the
    operating system's entropy, read by the unseeded constructors, and
    the double an out-of-bounds read returns. *)
Record world : Type := { entropy : nat -> Z; reads : nat; uninit : fl }.

Definition fresh_seed (w : world) : Z * world :=
  (entropy w (reads w),
   {| entropy := entropy w; reads := S (reads w); uninit := uninit w |}).

Section Generators.
Context `{RandomSources}.

Definition Random (seed : Z) : generator := {| draws := mt19937 seed; pos := 0 |}.
Definition default_rng (seed : Z) : generator := {| draws := pcg64 seed; pos := 0 |}.

Definition Random_unseeded (w : world) : generator * world :=
  let '(s, w') := fresh_seed w in (Random s, w').
Definition default_rng_unseeded (w : world) : generator * world :=
  let '(s, w') := fresh_seed w in (default_rng s, w').

End Generators.

(** ** [Generator.choice(a, size, replace=True, p)] (NumPy) *)

(** [sqrt(np.finfo(np.float64).eps)], the tolerance on the sum of [p]. *)
Definition atol : Qc := Q2Qc (1 # 67108864).

Fixpoint kahan_loop (sum c : fl) (l : list fl) : fl :=
  match l with
  | [] => sum
  | x :: l =>
      let y := fsub x c in
      let t := fadd sum y in
      kahan_loop t (fsub (fsub t sum) y) l
  end.

(** [kahan_sum(darr, n)] starts from [darr[0]] whatever [n] is. *)
Definition kahan_sum (w : world) (p : list fl) : fl :=
  match p with
  | [] => uninit w
  | x :: l => kahan_loop x (Fin 0) l
  end.

Fixpoint cumsum_from (acc : fl) (l : list fl) : list fl :=
  match l with
  | [] => []
  | x :: l => let s := fadd acc x in s :: cumsum_from s l
  end.
Definition cumsum (l : list fl) : list fl :=
  match l with
  | [] => []
  | x :: l => x :: cumsum_from x l
  end.

(** [searchsorted(cdf, u, side='right')] on a sorted array: the first
    position whose entry is greater than [u]. *)
Fixpoint searchsorted_right (cdf : list fl) (u : fl) : nat :=
  match cdf with
  | [] => O
  | c :: cdf => if flt u c then O else S (searchsorted_right cdf u)
  end.

Definition take_index {A} (a : list A) (i : nat) : result A :=
  match a !! i with
  | Some x => Ok x
  | None => Raise (IndexError "index out of bounds")
  end.

Fixpoint take_indices {A} (a : list A) (idx : list nat) : result (list A) :=
  match idx with
  | [] => Ok []
  | i :: idx =>
      x ← take_index a i;
      xs ← take_indices a idx;
      Ok (x :: xs)
  end.

Definition choice {A} (w : world) (g : generator) (a : list A) (size : Z)
    (p : list fl) : result (list A * generator) :=
  if bool_decide (length a = O) && negb (bool_decide (size = 0%Z)) then
    Raise (ValueError "a cannot be empty unless no samples are taken")
  else if negb (bool_decide (length p = length a)) then
    Raise (ValueError "a and p must have same size")
  else
    let p_sum := kahan_sum w p in
    if isnan p_sum then Raise (ValueError "Probabilities contain NaN")
    else if existsb (fun x => flt x (Fin 0)) p then
      Raise (ValueError "Probabilities are not non-negative")
    else if fgt (fabs (fsub p_sum (Fin 1))) (Fin atol) then
      Raise (ValueError "Probabilities do not sum to 1")
    else
      match last (cumsum p) with
      | None => Raise (IndexError "index -1 is out of bounds")
      | Some total =>
          let cdf := map (fun c => fdiv c total) (cumsum p) in
          if bool_decide (size < 0)%Z then
            Raise (ValueError "negative dimensions are not allowed")
          else
            let '(us, g') := random_n (Z.to_nat size) g in
            let idx := map (fun u => searchsorted_right cdf (Fin u)) us in
            xs ← take_indices a idx;
            Ok (xs, g')
      end.

(** ** Configuration ([src/src/config.py]) *)

Module config.
Definition KMEANS_N_INIT : Z := 10.
Definition KMEANS_RANDOM_STATE : Z := 42.
Definition SCENARIOS : list Z := [10; 25; 50]%Z.
Definition COVERAGE_RADIUS_M : Qc := Q2Qc (inject_Z 500).
Definition BASELINE_ITERATIONS : Z := 300.
Definition BASELINE_SEED : Z := 42.
Definition COL_TOTAL_VEHICLES : string := "Total_Vehicles".
Definition COL_DEMAND_SCORE : string := "Demand_Score".
Definition COL_UNMET_DEMAND : string := "Unmet_Demand".
End config.

(** ** Geometry and the zone table *)

(** A hub location, [lat, lng]. *)
Definition coord : Type := fl * fl.

(** What the module observes of a Shapely polygon: [bounds], the
    point-set predicates, [centroid], and, once reprojected to the metric
    reference system, its area and the area of its intersection with the
    buffer of a given radius around a hub.  For a point, Shapely's
    [contains] holds exactly on the interior of the polygon; [covers] is
    the predicate that also accepts the boundary. *)
Record polygon : Type := {
  bounds : Qc * Qc * Qc * Qc;
  interior : Qc -> Qc -> bool;
  boundary : Qc -> Qc -> bool;
  centroid : Qc * Qc;
  area_m : fl;
  intersection_area_m : coord -> Qc -> fl
}.

Definition contains (p : polygon) (x y : Qc) : bool := interior p x y.
Definition covers (p : polygon) (x y : Qc) : bool :=
  interior p x y || boundary p x y.

(** A row of the GeoDataFrame: its geometry ([None] when missing) and its
    numeric cells (NaN when missing).  The frame has the default
    positional index. *)
Record zone : Type := { geometry : option polygon; cells : gmap string fl }.
Record GeoDataFrame : Type := { columns : gset string; rows : list zone }.

Definition cell (c : string) (z : zone) : fl := default NaN (cells z !! c).

(** [gdf[c].values] *)
Definition column (gdf : GeoDataFrame) (c : string) : result (list fl) :=
  if bool_decide (c ∈ columns gdf) then Ok (map (cell c) (rows gdf))
  else Raise (KeyError c).

(** [gdf.index.to_numpy()] *)
Definition index (gdf : GeoDataFrame) : list nat := seq 0 (length (rows gdf)).

(** [gdf.loc[idx, 'geometry']] *)
Definition loc_geometry (gdf : GeoDataFrame) (idx : nat) : result (option polygon) :=
  match rows gdf !! idx with
  | Some z => Ok (geometry z)
  | None => Raise (KeyError "index")
  end.

(** [GeoSeries.area] and [GeoSeries.intersection(buffer).area] on one row
    of the reprojected frame. *)
Definition zone_area (z : zone) : fl :=
  match geometry z with Some p => area_m p | None => NaN end.
Definition zone_intersection_area (hub : coord) (radius_m : Qc) (z : zone) : fl :=
  match geometry z with
  | Some p => intersection_area_m p hub radius_m
  | None => NaN
  end.

(** A NumPy array of doubles, as far as its shape matters here: one
    dimension, or [n] rows of two columns. *)
Inductive ndarray : Type :=
| Vec (l : list fl)
| Mat (rows : list coord).

(** [np.array(locations)] for a list of pairs: the empty list gives an
    array of shape [(0,)]. *)
Definition np_array (locations : list coord) : ndarray :=
  match locations with
  | [] => Vec []
  | _ => Mat locations
  end.

(** ** scikit-learn's KMeans

    [KMeans(n_clusters, random_state, n_init).fit(X, sample_weight)
     .cluster_centers_].  Lloyd's algorithm is not modelled; the
    interface carries the two facts the module relies on: the centres
    array has [n_clusters] rows, and a fit on valid arguments succeeds. *)
Definition finite_coord (c : coord) : Prop :=
  isfinite c.1 = true /\ isfinite c.2 = true.
Definition valid_weight (a : fl) : Prop := exists q, a = Fin q /\ 0 <= q.

Class KMeansModel : Type := {
  KMeans_fit : list coord -> list fl -> Z -> Z -> Z -> result (list coord);
  fit_shape : forall X sw k rs ni C,
    KMeans_fit X sw k rs ni = Ok C -> Z.of_nat (length C) = k;
  fit_ok : forall X sw k rs ni,
    (1 <= k <= Z.of_nat (length X))%Z ->
    (0 <= rs < 2 ^ 32)%Z -> (1 <= ni)%Z ->
    Forall finite_coord X ->
    length sw = length X ->
    Forall valid_weight sw ->
    np_sum sw <> Fin 0 ->
    exists C, KMeans_fit X sw k rs ni = Ok C
}.

(** ** [src/src/optimization.py] *)

Section Optimization.
Context `{RandomSources} `{KMeansModel}.

(** The weights handed to KMeans (lines 42-47). *)
Definition sanitize_weights (weights : list fl) : list fl :=
  let weights := map (fun a => maximum a (Fin 0)) weights in
  if feq (np_sum weights) (Fin 0) then ones_like weights else weights.

Definition weighted_kmeans_optimization (coordinates : list coord)
    (weights : list fl) (n_clusters random_state n_init : Z) : result ndarray :=
  let n_clusters := Z.min n_clusters (Z.of_nat (length coordinates)) in
  let weights := sanitize_weights weights in
  centers ← KMeans_fit coordinates weights n_clusters random_state n_init;
  Ok (Mat centers).

Definition generate_smart_locations (gdf : GeoDataFrame) (n_hubs : Z)
    (weight_column lat_column lng_column : string) : result ndarray :=
  lat ← column gdf lat_column;
  lng ← column gdf lng_column;
  let coordinates := zip lat lng in
  w ← column gdf weight_column;
  let weights := map (fillna (Fin 0)) w in
  weighted_kmeans_optimization coordinates weights n_hubs
    config.KMEANS_RANDOM_STATE config.KMEANS_N_INIT.

(** The [for _ in range(n)] loop of [random_point_in_polygon]: the point
    returned as [(lat, lng)], if any, and the generator after the draws. *)
Fixpoint rejection_loop (n : nat) (p : polygon) (g : generator)
    : option (Qc * Qc) * generator :=
  match n with
  | O => (None, g)
  | S n =>
      let '(minx, miny, maxx, maxy) := bounds p in
      let '(x, g1) := uniform g minx maxx in
      let '(y, g2) := uniform g1 miny maxy in
      if contains p x y then (Some (y, x), g2)
      else rejection_loop n p g2
  end.

(** Returns the point, the state of the [py_rng] object after the call
    and the world after the call. *)
Definition random_point_in_polygon (w : world) (p : polygon)
    (rng py_rng : option generator) : (Qc * Qc) * generator * world :=
  let '(rng, w) :=
    match rng with Some g => (g, w) | None => default_rng_unseeded w end in
  let '(py_rng, w) :=
    match py_rng with Some g => (g, w) | None => Random_unseeded w end in
  match rejection_loop 1000 p py_rng with
  | (Some pt, g) => (pt, g, w)
  | (None, g) => let '(cx, cy) := centroid p in ((cy, cx), g, w)
  end.

(** The loop over the sampled rows (lines 173-177). *)
Fixpoint sample_locations (w : world) (gdf : GeoDataFrame)
    (rng py_rng : generator) (sampled_indices : list nat)
    : result (list coord) :=
  match sampled_indices with
  | [] => Ok []
  | idx :: rest =>
      polygon ← loc_geometry gdf idx;
      match polygon with
      | None => Raise (AttributeError "'NoneType' object has no attribute 'bounds'")
      | Some p =>
          let '(pt, py_rng', w') :=
            random_point_in_polygon w p (Some rng) (Some py_rng) in
          locations ← sample_locations w' gdf rng py_rng' rest;
          Ok ((Fin pt.1, Fin pt.2) :: locations)
      end
  end.

(** [np.random.default_rng(seed)] refuses a negative seed. *)
Definition default_rng_checked (seed : Z) : result generator :=
  if bool_decide (seed < 0)%Z then Raise (ValueError "expected non-negative integer")
  else Ok (default_rng seed).

(** The probability vector handed to the sampler (lines 158-162). *)
Definition baseline_probabilities (w : list fl) : list fl :=
  let weights := map (fillna (Fin 0)) w in
  let total := np_sum weights in
  map (fun a => fdiv a total) weights.

Definition generate_population_weighted_locations (w : world)
    (gdf : GeoDataFrame) (n_hubs : Z) (weight_column : string) (seed : Z)
    : result ndarray :=
  rng ← default_rng_checked seed;
  let py_rng := Random seed in
  col ← column gdf weight_column;
  let weights := baseline_probabilities col in
  '(sampled_indices, rng) ← choice w rng (index gdf) n_hubs weights;
  locations ← sample_locations w gdf rng py_rng sampled_indices;
  Ok (np_array locations).

(** The four metrics of [evaluate_coverage]. *)
Record report : Type := {
  covered_neighborhoods : Z;
  avg_coverage : fl;
  demand_covered : fl;
  population_covered : fl
}.

(** One hub's [coverage_pct] for one zone (lines 229-232). *)
Definition coverage_pct (radius_m : Qc) (hub : coord) (z : zone) : fl :=
  clip (Fin 0) (Fin 1)
    (fillna (Fin 0) (fdiv (zone_intersection_area hub radius_m z) (zone_area z))).

(** The loop over the buffers (lines 225-235). *)
Definition max_coverage (hubs : list coord) (gdf : GeoDataFrame)
    (radius_m : Qc) : list fl :=
  foldl (fun acc hub =>
           zip_with maximum acc (map (coverage_pct radius_m hub) (rows gdf)))
        (replicate (length (rows gdf)) (Fin 0)) hubs.

(** A weighted-coverage metric (lines 242-247 and 250-255). *)
Definition weighted_coverage (gdf : GeoDataFrame) (c : string)
    (max_cov : list fl) : fl :=
  match column gdf c with
  | Ok col =>
      let total := pd_sum col in
      let covered := pd_sum (zip_with fmul col max_cov) in
      if fgt total (Fin 0) then fmul (fdiv covered total) (of_Z 100) else Fin 0
  | Raise _ => Fin 0
  end.

Definition evaluate_coverage (hub_locations : ndarray) (gdf_barrios : GeoDataFrame)
    (radius_m : Qc) : result report :=
  match hub_locations with
  | Vec _ => Raise (IndexError "too many indices for array")
  | Mat hubs =>
      let max_cov := max_coverage hubs gdf_barrios radius_m in
      Ok {| covered_neighborhoods :=
              Z.of_nat (length (filter (fun c => fgt c (Fin half) = true) max_cov));
            avg_coverage := fmul (np_mean max_cov) (of_Z 100);
            demand_covered :=
              weighted_coverage gdf_barrios config.COL_DEMAND_SCORE max_cov;
            population_covered :=
              weighted_coverage gdf_barrios config.COL_TOTAL_VEHICLES max_cov |}
  end.

(** The keys of the metrics dictionary, and its values as doubles. *)
Inductive metric : Type :=
| covered_neighborhoods_key
| avg_coverage_key
| demand_covered_key
| population_covered_key.

Definition get (key : metric) (m : report) : fl :=
  match key with
  | covered_neighborhoods_key => of_Z (covered_neighborhoods m)
  | avg_coverage_key => avg_coverage m
  | demand_covered_key => demand_covered m
  | population_covered_key => population_covered m
  end.

Record scenario : Type := {
  smart : report;
  baseline : metric -> fl;
  improvement_pct : metric -> fl
}.

(** Lines 314-318. *)
Definition improvement (smart_metrics : report) (avg_baseline : metric -> fl)
    (key : metric) : fl :=
  if fgt (avg_baseline key) (Fin 0)
  then fmul (fdiv (fsub (get key smart_metrics) (avg_baseline key))
                  (avg_baseline key)) (of_Z 100)
  else Fin 0.

(** The baseline iterations (lines 294-302). *)
Fixpoint baseline_runs (w : world) (gdf : GeoDataFrame) (n_hubs seed : Z)
    (iterations : list Z) : result (list report) :=
  match iterations with
  | [] => Ok []
  | i :: rest =>
      baseline_locs ← generate_population_weighted_locations w gdf n_hubs
                        config.COL_TOTAL_VEHICLES (seed + i);
      baseline_metrics ← evaluate_coverage baseline_locs gdf config.COVERAGE_RADIUS_M;
      more ← baseline_runs w gdf n_hubs seed rest;
      Ok (baseline_metrics :: more)
  end.

Definition range (n : Z) : list Z := map Z.of_nat (seq 0 (Z.to_nat n)).

(** One pass of the loop over [n_hubs_list] (lines 289-319). *)
Definition run_scenario (w : world) (gdf : GeoDataFrame) (n_iterations seed : Z)
    (n_hubs : Z) : result scenario :=
  smart_locs ← generate_smart_locations gdf n_hubs config.COL_UNMET_DEMAND "lat" "lng";
  smart_metrics ← evaluate_coverage smart_locs gdf config.COVERAGE_RADIUS_M;
  baseline_metrics_list ← baseline_runs w gdf n_hubs seed (range n_iterations);
  match baseline_metrics_list with
  | [] => Raise (IndexError "list index out of range")
  | _ :: _ =>
      let avg_baseline := fun key => np_mean (map (get key) baseline_metrics_list) in
      Ok {| smart := smart_metrics;
            baseline := avg_baseline;
            improvement_pct := improvement smart_metrics avg_baseline |}
  end.

Fixpoint run_scenarios (w : world) (gdf : GeoDataFrame) (n_iterations seed : Z)
    (n_hubs_list : list Z) (results : gmap Z scenario) : result (gmap Z scenario) :=
  match n_hubs_list with
  | [] => Ok results
  | n_hubs :: rest =>
      s ← run_scenario w gdf n_iterations seed n_hubs;
      run_scenarios w gdf n_iterations seed rest (<[n_hubs := s]> results)
  end.

Definition run_ab_simulation (w : world) (gdf : GeoDataFrame)
    (n_hubs_list : option (list Z)) (n_iterations seed : Z)
    : result (gmap Z scenario) :=
  let n_hubs_list := default config.SCENARIOS n_hubs_list in
  run_scenarios w gdf n_iterations seed n_hubs_list ∅.

End Optimization.

(** ** scikit-learn's MinMaxScaler

    [MinMaxScaler().fit_transform(X)] on one column, with the default
    feature range (0, 1): the minimum and the maximum ignore NaN, a range
    below [10 * eps] counts as a constant column and scales by 1, and
    the input check refuses an empty column and infinite values. *)
Definition ten_eps : Qc := Q2Qc (10 # 4503599627370496).

Definition isinf (a : fl) : bool :=
  match a with NInf | PInf => true | _ => false end.

Definition nanmin (l : list fl) : fl :=
  match filter (fun a => isnan a = false) l with
  | [] => NaN
  | x :: r => foldl minimum x r
  end.
Definition nanmax (l : list fl) : fl :=
  match filter (fun a => isnan a = false) l with
  | [] => NaN
  | x :: r => foldl maximum x r
  end.

Definition handle_zeros_in_scale (scale : fl) : fl :=
  if flt scale (Fin ten_eps) then Fin 1 else scale.

Definition MinMaxScaler_fit_transform (X : list fl) : result (list fl) :=
  if bool_decide (length X = O) then
    Raise (ValueError "Found array with 0 sample(s) while a minimum of 1 is required")
  else if existsb isinf X then
    Raise (ValueError "Input X contains infinity or a value too large")
  else
    let data_min := nanmin X in
    let data_max := nanmax X in
    let data_range := fsub data_max data_min in
    let scale_ := fdiv (fsub (Fin 1) (Fin 0)) (handle_zeros_in_scale data_range) in
    let min_ := fsub (Fin 0) (fmul data_min scale_) in
    Ok (map (fun x => fadd (fmul x scale_) min_) X).

(** ** [src/src/preprocessing.py]: the demand scores *)

Module config_demand.
Definition SUPPLY_IMPACT : Qc := Q2Qc (inject_Z 80).
Definition COL_EV_COUNT : string := "EV_Count".
Definition COL_CHARGER_COUNT : string := "Charger_Count".
End config_demand.

(** [df[c] = values] on a copy of the frame: pandas refuses values whose
    length is not the number of rows. *)
Definition set_column (c : string) (values : list fl) (df : GeoDataFrame)
    : result GeoDataFrame :=
  if bool_decide (length values = length (rows df)) then
    Ok {| columns := {[c]} ∪ columns df;
          rows := zip_with (fun z v => {| geometry := geometry z;
                                          cells := <[c := v]> (cells z) |})
                           (rows df) values |}
  else Raise (ValueError "Length of values does not match length of index").

Definition normalize_column (df : GeoDataFrame) (col : string)
    (output_column : option string) : result GeoDataFrame :=
  let output_column := default ("Norm_" +:+ col) output_column in
  values ← column df col;
  let values := map (fillna (Fin 0)) values in
  scaled ← MinMaxScaler_fit_transform values;
  set_column output_column scaled df.




Definition calculate_unmet_demand (gdf : GeoDataFrame) (supply_impact : Qc)
    : result GeoDataFrame :=
  gdf ← normalize_column gdf config_demand.COL_CHARGER_COUNT (Some "Norm_Supply");
  demand ← column gdf config.COL_DEMAND_SCORE;
  supply ← column gdf "Norm_Supply";
  set_column config.COL_UNMET_DEMAND
    (map (fun a => maximum a (Fin 0))
       (zip_with (fun d s => fsub d (fmul s (Fin supply_impact))) demand supply)) gdf.

(** ** The specification's words, for comparison with the code *)

(** "The maximum over hubs of (area of intersection between the zone
    polygon and that hub's disk divided by the zone's area), clipped to
    [0, 1]"; with no hub at all nothing is covered. *)
Definition hub_fraction (radius_m : Qc) (z : zone) (hub : coord) : fl :=
  fdiv (zone_intersection_area hub radius_m z) (zone_area z).

Definition max_over (l : list fl) : fl :=
  match l with
  | [] => Fin 0
  | a :: l => foldl maximum a l
  end.

Definition spec_coverage (radius_m : Qc) (hubs : list coord) (z : zone) : fl :=
  clip (Fin 0) (Fin 1) (max_over (map (hub_fraction radius_m z) hubs)).

(** "Negative weights are clamped to zero; if all weights are zero after
    clamping, fall back to uniform weight 1 for every point." *)
Definition clamp_negative (a : fl) : fl := if flt a (Fin 0) then Fin 0 else a.

Definition spec_weights (weights : list fl) : list fl :=
  let clamped := map clamp_negative weights in
  if decide (Forall (fun a => a = Fin 0) clamped)
  then map (fun _ => Fin 1) weights
  else clamped.

(** The [j]-th candidate point of the rejection sampler, as [(x, y)]:
    two draws for each attempt, the abscissa first. *)
Definition candidate (p : polygon) (g : generator) (j : nat) : Qc * Qc :=
  let '(minx, miny, maxx, maxy) := bounds p in
  (minx + (maxx - minx) * draws g (pos g + 2 * j),
   miny + (maxy - miny) * draws g (pos g + 2 * j + 1)).




(** [gdf.drop(columns=[c])] *)
Definition drop_column (c : string) (gdf : GeoDataFrame) : GeoDataFrame :=
  {| columns := columns gdf ∖ {[c]};
     rows := map (fun z => {| geometry := geometry z; cells := delete c (cells z) |})
                 (rows gdf) |}.

(** The [py_rng] object the sampler draws from: the caller's, or a fresh
    unseeded one (created after the unseeded NumPy generator, when that
    one is missing too). *)
Definition py_generator `{RandomSources} (w : world)
    (rng py_rng : option generator) : generator :=
  match py_rng with
  | Some g => g
  | None =>
      let w1 := match rng with Some _ => w | None => (default_rng_unseeded w).2 end in
      (Random_unseeded w1).1
  end.

(** Attempt [i] is the first whose candidate the polygon contains. *)
Definition first_accepted (p : polygon) (g : generator) (i : nat) : Prop :=
  contains p (candidate p g i).1 (candidate p g i).2 = true
  /\ forall j, (j < i)%nat -> contains p (candidate p g j).1 (candidate p g j).2 = false.

Definition all_rejected (p : polygon) (g : generator) (n : nat) : Prop :=
  forall j, (j < n)%nat -> contains p (candidate p g j).1 (candidate p g j).2 = false.

(** What a weight is after the clamp: not a negative number. *)
Definition clamped (a : fl) : Prop :=
  a = NaN \/ a = PInf \/ exists q, a = Fin q /\ 0 <= q.

(** A coverage fraction: a number between 0 and 1. *)
Definition unit_interval (a : fl) : Prop :=
  exists q, a = Fin q /\ 0 <= q /\ q <= 1.

(** A percentage: a number between 0 and 100. *)
Definition percentage (a : fl) : Prop :=
  exists q, a = Fin q /\ 0 <= q /\ q <= Q2Qc (inject_Z 100).

(** Order between two numbers. *)
Definition fle (a b : fl) : Prop :=
  exists x y, a = Fin x /\ b = Fin y /\ x <= y.

(** The rows drawn by the baseline generator (lines 155-170 of
    [generate_population_weighted_locations]), before the points are
    drawn inside them. *)
Definition sampled_indices `{RandomSources} (w : world) (gdf : GeoDataFrame)
    (n_hubs : Z) (weight_column : string) (seed : Z) : result (list nat) :=
  rng ← default_rng_checked seed;
  col ← column gdf weight_column;
  '(sampled, _) ← choice w rng (index gdf) n_hubs (baseline_probabilities col);
  Ok sampled.

(** A baseline location lies in a zone of the table: strictly inside its
    polygon, or at its centroid. *)
Definition located_in (gdf : GeoDataFrame) (loc : coord) : Prop :=
  exists z p x y,
    z ∈ rows gdf /\ geometry z = Some p /\ loc = (Fin y, Fin x)
    /\ (contains p x y = true \/ (x, y) = centroid p).

(** ** Concrete inputs *)

Definition qc (n : Z) (d : positive) : Qc := Q2Qc (n # d).

(** An axis-parallel rectangle, with the area and the intersection areas
    the metric frame gives it. *)
Definition rectangle (minx miny maxx maxy : Qc) (area : fl)
    (overlap : coord -> Qc -> fl) : polygon :=
  {| bounds := (minx, miny, maxx, maxy);
     interior := fun x y =>
       Qcltb minx x && Qcltb x maxx && Qcltb miny y && Qcltb y maxy;
     boundary := fun x y =>
       Qcleb minx x && Qcleb x maxx && Qcleb miny y && Qcleb y maxy
       && negb (Qcltb minx x && Qcltb x maxx && Qcltb miny y && Qcltb y maxy);
     centroid := ((minx + maxx) / qc 2 1, (miny + maxy) / qc 2 1);
     area_m := area;
     intersection_area_m := overlap |}.

Definition ex_hub_a : coord := (Fin (qc 414 10), Fin (qc 215 100)).
Definition ex_hub_b : coord := (Fin (qc 4141 100), Fin (qc 217 100)).

(** A zone of one square kilometre; the disk around [ex_hub_a] covers
    300000 m2 of it, the one around [ex_hub_b] 400000 m2. *)
Definition ex_square : polygon :=
  rectangle 0 0 1 1 (of_Z 1000000)
    (fun hub _ => if decide (hub = ex_hub_a) then of_Z 300000
                  else if decide (hub = ex_hub_b) then of_Z 400000
                  else Fin 0).


Definition ex_zone (g : option polygon) (cs : list (string * fl)) : zone :=
  {| geometry := g; cells := list_to_map cs |}.

Definition ex_columns : gset string :=
  {["lat"; "lng"; "Unmet_Demand"; "Demand_Score"; "Total_Vehicles"]}.

Definition ex_cells (lat lng unmet demand vehicles : fl) : list (string * fl) :=
  [("lat", lat); ("lng", lng); ("Unmet_Demand", unmet);
   ("Demand_Score", demand); ("Total_Vehicles", vehicles)].

(** Two zones with demand 30 and 10 and 200 and 600 vehicles. *)
Definition ex_gdf : GeoDataFrame :=
  {| columns := ex_columns;
     rows := [ ex_zone (Some ex_square)
                 (ex_cells (Fin (qc 414 10)) (Fin (qc 215 100)) (of_Z 5) (of_Z 30) (of_Z 200));
               ex_zone (Some ex_square)
                 (ex_cells (Fin (qc 4141 100)) (Fin (qc 217 100)) (of_Z 0) (of_Z 10) (of_Z 600)) ] |}.

(** The same table with every weight zero. *)
Definition ex_gdf_zero : GeoDataFrame :=
  {| columns := ex_columns;
     rows := [ ex_zone (Some ex_square)
                 (ex_cells (Fin (qc 414 10)) (Fin (qc 215 100)) (of_Z 0) (of_Z 0) (of_Z 0));
               ex_zone (Some ex_square)
                 (ex_cells (Fin (qc 4141 100)) (Fin (qc 217 100)) (of_Z 0) (of_Z 0) (of_Z 0)) ] |}.




Definition ex_world : world :=
  {| entropy := fun n => Z.of_nat n; reads := 0; uninit := Fin 0 |}.

(** A generator whose first draw is 0 and whose other draws are 1/2. *)
Definition ex_generator : generator :=
  {| draws := fun n => match n with O => 0 | S _ => half end; pos := 0 |}.

(** Random sources that always draw 1/2. *)
#[local] Instance ex_sources : RandomSources.
Proof.
  refine {| mt19937 := fun _ _ => half; pcg64 := fun _ _ => half |};
    intros _ _; split; by compute.
Defined.

(** A clustering that keeps the first [n_clusters] points, and refuses
    the calls scikit-learn refuses. *)
Definition ex_fit (X : list coord) (sw : list fl) (k rs ni : Z) : result (list coord) :=
  if bool_decide (1 <= k <= Z.of_nat (length X))%Z
  then Ok (take (Z.to_nat k) X)
  else Raise (ValueError "invalid n_clusters").

#[local] Instance ex_kmeans : KMeansModel.
Proof.
  refine {| KMeans_fit := ex_fit |}.
  - intros X sw k rs ni C. unfold ex_fit. case_bool_decide; [|discriminate].
    intros [= <-]. rewrite length_take. lia.
  - intros X sw k rs ni Hk _ _ _ _ _ _. unfold ex_fit.
    rewrite bool_decide_eq_true_2 by done. eauto.
Defined.

(** A table before the demand scores are computed: income, vehicles,
    electric vehicles and chargers of three zones. *)
Definition ex_raw_zone (income vehicles evs chargers : fl) : zone :=
  ex_zone (Some ex_square)
    [("Avg_Income", income); ("Total_Vehicles", vehicles);
     ("EV_Count", evs); ("Charger_Count", chargers)].

Definition ex_raw_gdf : GeoDataFrame :=
  {| columns := {["Avg_Income"; "Total_Vehicles"; "EV_Count"; "Charger_Count"]};
     rows := [ ex_raw_zone (of_Z 20000) (of_Z 200) (of_Z 10) (of_Z 4);
               ex_raw_zone (of_Z 30000) (of_Z 600) NaN (of_Z 0);
               ex_raw_zone (of_Z 25000) (of_Z 400) (of_Z 30) (of_Z 1) ] |}.

(** A table with its demand scores, before the unmet demand is
    computed: the third zone has more supply than demand. *)
Definition ex_scored_zone (demand chargers : fl) : zone :=
  ex_zone (Some ex_square)
    [("Demand_Score", demand); ("Charger_Count", chargers)].

Definition ex_scored_gdf : GeoDataFrame :=
  {| columns := {["Demand_Score"; "Charger_Count"]};
     rows := [ ex_scored_zone (of_Z 90) (of_Z 0);
               ex_scored_zone (of_Z 50) (of_Z 2);
               ex_scored_zone (of_Z 30) (of_Z 4) ] |}.

(** * Properties *)

(** ** Doubles *)

Lemma Qcltb_lt x y : Qcltb x y = true <-> x < y.
Proof. unfold Qcltb. rewrite Qclt_alt. destruct (x ?= y); intuition congruence. Qed.

Lemma Qcltb_ge x y : Qcltb x y = false <-> y <= x.
Proof.
  rewrite <- not_true_iff_false, Qcltb_lt.
  split; [apply Qcnot_lt_le | apply Qcle_not_lt].
Qed.

Lemma Qceqb_eq x y : Qceqb x y = true <-> x = y.
Proof. unfold Qceqb. rewrite Qceq_alt. destruct (x ?= y); intuition congruence. Qed.

Lemma Qceqb_neq x y : Qceqb x y = false <-> x <> y.
Proof. rewrite <- not_true_iff_false, Qceqb_eq. done. Qed.

(** Boolean comparisons of the context become order facts. *)
Ltac qc_bool :=
  repeat match goal with
  | H : Qcltb _ _ = true |- _ => apply Qcltb_lt in H
  | H : Qcltb _ _ = false |- _ => apply Qcltb_ge in H
  | H : Qceqb _ _ = true |- _ => apply Qceqb_eq in H
  | H : Qceqb _ _ = false |- _ => apply Qceqb_neq in H
  end.

(** Linear order facts between rationals that are variables or 0 and 1. *)
Ltac qc_lra :=
  unfold Qclt, Qcle in *;
  change (this (Q2Qc 0)) with 0%Q in *;
  change (this (Q2Qc 1)) with 1%Q in *;
  lra.

(** Case analysis on every comparison of the goal. *)
Ltac qc_cases :=
  repeat match goal with
  | |- context [Qcltb ?a ?b] => destruct (Qcltb a b) eqn:?
  end;
  qc_bool;
  first [ reflexivity
        | exfalso; qc_lra
        | f_equal; apply Qcle_antisym; qc_lra ].

Lemma isfinite_Fin a : isfinite a = true -> exists q, a = Fin q.
Proof. destruct a; try discriminate. eauto. Qed.

Lemma maximum_zero_clip q :
  maximum (Fin 0) (clip (Fin 0) (Fin 1) (Fin q)) = clip (Fin 0) (Fin 1) (Fin q).
Proof. unfold clip, maximum, minimum, flt. qc_cases. Qed.

Lemma clip_maximum a b :
  maximum (clip (Fin 0) (Fin 1) (Fin a)) (clip (Fin 0) (Fin 1) (Fin b))
  = clip (Fin 0) (Fin 1) (maximum (Fin a) (Fin b)).
Proof. unfold clip, maximum, minimum, flt. qc_cases. Qed.

Lemma maximum_Fin a b : exists c, maximum (Fin a) (Fin b) = Fin c.
Proof. simpl. destruct (Qcltb a b); eauto. Qed.

Lemma clip_unit_range a :
  a <> NaN -> exists q, clip (Fin 0) (Fin 1) a = Fin q /\ 0 <= q /\ q <= 1.
Proof.
  intros Ha. destruct a as [| | |x]; [done| | |].
  - exists 0. split; [reflexivity|]. split; by compute.
  - exists 1. split; [reflexivity|]. split; by compute.
  - unfold clip, maximum, minimum, flt.
    destruct (Qcltb x 0) eqn:?; [destruct (Qcltb 1 0) eqn:?|destruct (Qcltb 1 x) eqn:?];
      qc_bool; eexists; (split; [reflexivity|]); split; qc_lra.
Qed.

Lemma fillna_not_nan a : fillna (Fin 0) a <> NaN.
Proof. by destruct a. Qed.

(** ** The coverage evaluator *)

Lemma map_fmap {A B} (f : A -> B) (l : list A) : map f l = f <$> l.
Proof. induction l as [|a l IH]; [done|]. cbn. by rewrite IH. Qed.

Lemma coverage_pct_range radius_m hub z :
  exists q, coverage_pct radius_m hub z = Fin q /\ 0 <= q /\ q <= 1.
Proof. apply clip_unit_range, fillna_not_nan. Qed.

(** The entry of a zone after the loop is the fold of [np.maximum] over
    that zone's own per-hub percentages. *)
Lemma max_coverage_fold hubs gdf radius_m : forall (acc : list fl) i z a,
  rows gdf !! i = Some z -> acc !! i = Some a ->
  foldl (fun acc hub =>
           zip_with maximum acc (map (coverage_pct radius_m hub) (rows gdf)))
        acc hubs !! i
  = Some (foldl (fun m hub => maximum m (coverage_pct radius_m hub z)) a hubs).
Proof.
  induction hubs as [|hub hubs IH]; intros acc i z a Hz Ha; [done|].
  simpl. apply IH; [done|].
  rewrite lookup_zip_with, Ha, map_fmap, list_lookup_fmap, Hz. done.
Qed.

Lemma max_coverage_lookup hubs gdf radius_m i z :
  rows gdf !! i = Some z ->
  max_coverage hubs gdf radius_m !! i
  = Some (foldl (fun m hub => maximum m (coverage_pct radius_m hub z)) (Fin 0) hubs).
Proof.
  intros Hz. apply max_coverage_fold; [done|].
  apply lookup_replicate_2. by eapply lookup_lt_Some.
Qed.

Lemma fold_clip_maximum (f : coord -> fl) hubs : forall m,
  Forall (fun hub => isfinite (f hub) = true) hubs ->
  foldl (fun acc hub => maximum acc (clip (Fin 0) (Fin 1) (fillna (Fin 0) (f hub))))
        (clip (Fin 0) (Fin 1) (Fin m)) hubs
  = clip (Fin 0) (Fin 1) (foldl maximum (Fin m) (map f hubs)).
Proof.
  induction hubs as [|hub hubs IH]; intros m Hf; [done|].
  inversion Hf as [|? ? Hh Hrest]; subst. cbn [foldl map].
  destruct (isfinite_Fin _ Hh) as [q Hq]. rewrite Hq.
  change (fillna (Fin 0) (Fin q)) with (Fin q).
  rewrite clip_maximum. simpl (maximum (Fin m) (Fin q)).
  destruct (Qcltb m q); by apply IH.
Qed.

(** C1: the coverage fraction [evaluate_coverage] gives a zone of
    non-zero area is the maximum over the hubs of the intersection area
    divided by the zone's area, clipped to [0, 1]: the hubs' shares are
    compared, never added. *)
Theorem coverage_is_max_over_hubs (hubs : list coord) (gdf : GeoDataFrame)
    (radius_m : Qc) (i : nat) (z : zone) :
  rows gdf !! i = Some z ->
  (exists a, zone_area z = Fin a /\ a <> 0) ->
  Forall (fun hub => isfinite (zone_intersection_area hub radius_m z) = true) hubs ->
  max_coverage hubs gdf radius_m !! i = Some (spec_coverage radius_m hubs z).
Proof.
  intros Hz [a [Ha Ha0]] Hfin.
  rewrite (max_coverage_lookup _ _ _ _ _ Hz). f_equal.
  unfold spec_coverage, coverage_pct.
  assert (Hfrac : Forall (fun hub => isfinite (hub_fraction radius_m z hub) = true) hubs).
  { eapply Forall_impl; [exact Hfin|]. intros hub Hh. unfold hub_fraction.
    destruct (isfinite_Fin _ Hh) as [x ->]. rewrite Ha. simpl.
    apply Qceqb_neq in Ha0. by rewrite Ha0. }
  destruct hubs as [|hub hubs]; [reflexivity|].
  inversion Hfrac as [|? ? Hh Hrest]; subst. cbn [foldl map max_over].
  fold (hub_fraction radius_m z hub).
  destruct (isfinite_Fin _ Hh) as [q Hq]. rewrite Hq.
  change (fillna (Fin 0) (Fin q)) with (Fin q).
  rewrite maximum_zero_clip.
  apply (fold_clip_maximum (hub_fraction radius_m z)). done.
Qed.

(** Two hubs reach 3/10 and 4/10 of the same zone: its coverage is
    4/10, not 7/10. *)
Example coverage_of_two_hubs :
  max_coverage [ex_hub_a; ex_hub_b] ex_gdf config.COVERAGE_RADIUS_M
  = [Fin (qc 2 5); Fin (qc 2 5)].
Proof.
  vm_compute. f_equal; [|f_equal]; f_equal; apply Qc_is_canon; reflexivity.
Qed.

Lemma coverage_is_max_over_hubs_witness :
  rows ex_gdf !! 0%nat = Some (ex_zone (Some ex_square)
     (ex_cells (Fin (qc 414 10)) (Fin (qc 215 100)) (of_Z 5) (of_Z 30) (of_Z 200)))
  /\ max_coverage [ex_hub_a; ex_hub_b] ex_gdf config.COVERAGE_RADIUS_M !! 0%nat
     = Some (spec_coverage config.COVERAGE_RADIUS_M [ex_hub_a; ex_hub_b]
               (ex_zone (Some ex_square)
                  (ex_cells (Fin (qc 414 10)) (Fin (qc 215 100)) (of_Z 5) (of_Z 30) (of_Z 200)))).
Proof.
  split; [reflexivity|].
  apply coverage_is_max_over_hubs.
  - reflexivity.
  - exists (Q2Qc (inject_Z 1000000)). split; [reflexivity|]. by vm_compute.
  - repeat constructor.
Defined.

(** ** The rejection sampler *)

Lemma candidate_shift p g j :
  candidate p {| draws := draws g; pos := S (S (pos g)) |} j = candidate p g (S j).
Proof.
  unfold candidate. destruct (bounds p) as [[[minx miny] maxx] maxy]. simpl.
  f_equal; do 3 f_equal; lia.
Qed.

Lemma rejection_loop_spec p : forall n g,
  let '(res, g') := rejection_loop n p g in
  draws g' = draws g
  /\ ((exists i, (i < n)%nat /\ first_accepted p g i
                 /\ res = Some ((candidate p g i).2, (candidate p g i).1)
                 /\ pos g' = (pos g + 2 * (i + 1))%nat)
      \/ (all_rejected p g n /\ res = None /\ pos g' = (pos g + 2 * n)%nat)).
Proof.
  induction n as [|n IH]; intros g.
  - simpl. split; [done|]. right. split; [|split; [done|lia]].
    intros j Hj. lia.
  - cbn [rejection_loop].
    assert (Hc0 : candidate p g 0 =
      ((bounds p).1.1.1 + ((bounds p).1.2 - (bounds p).1.1.1) * draws g (pos g),
       (bounds p).1.1.2 + ((bounds p).2 - (bounds p).1.1.2) * draws g (S (pos g)))).
    { unfold candidate. destruct (bounds p) as [[[minx miny] maxx] maxy]. simpl.
      rewrite Nat.add_0_r, Nat.add_1_r. done. }
    destruct (bounds p) as [[[minx miny] maxx] maxy] eqn:Hb. simpl in Hc0.
    unfold uniform, random. cbn [draws pos].
    destruct (contains p _ _) eqn:Hin.
    + split; [done|]. left. exists 0%nat. unfold first_accepted. rewrite Hc0.
      cbn [fst snd pos].
      split; [lia|]. split; [split; [done|intros j Hj; lia]|]. split; [done|lia].
    + specialize (IH {| draws := draws g; pos := S (S (pos g)) |}).
      destruct (rejection_loop n p _) as [res g'].
      destruct IH as [Hd IH]. cbn [draws pos] in *. split; [done|].
      destruct IH as [(i & Hi & [Hacc Hrej] & Hres & Hpos) | (Hrej & Hres & Hpos)].
      * left. exists (S i). rewrite candidate_shift in Hacc, Hres.
        split; [lia|]. split; [split; [done|]|split; [done|lia]].
        intros j Hj. destruct j as [|j]; [by rewrite Hc0|].
        rewrite <- candidate_shift. apply Hrej. lia.
      * right. split; [|split; [done|lia]].
        intros j Hj. destruct j as [|j]; [by rewrite Hc0|].
        rewrite <- candidate_shift. apply Hrej. lia.
Qed.

Section Sampler.
Context `{RandomSources}.

(** C2, as the code has it: the sampler draws candidate points in the
    bounding box, two draws each, and returns the first of at most 1000
    that the polygon contains, which for Shapely means a point of the
    interior; when all 1000 are refused it returns the centroid.  Either
    way it returns a (lat, lng) pair. *)
Theorem random_point_in_polygon_spec (w : world) (p : polygon)
    (rng py_rng : option generator) :
  let g := py_generator w rng py_rng in
  let '(pt, g', _) := random_point_in_polygon w p rng py_rng in
  draws g' = draws g
  /\ ((exists i, (i < 1000)%nat /\ first_accepted p g i
                 /\ pt = ((candidate p g i).2, (candidate p g i).1)
                 /\ pos g' = (pos g + 2 * (i + 1))%nat)
      \/ (all_rejected p g 1000
          /\ pt = ((centroid p).2, (centroid p).1)
          /\ pos g' = (pos g + 2000)%nat)).
Proof.
  intros g. unfold random_point_in_polygon.
  assert (Hg : (let '(_, w1) := match rng with
                                | Some g0 => (g0, w)
                                | None => default_rng_unseeded w
                                end in
                match py_rng with
                | Some g0 => (g0, w1)
                | None => Random_unseeded w1
                end).1 = g).
  { subst g. unfold py_generator. destruct rng, py_rng; done. }
  destruct (match rng with Some g0 => (g0, w) | None => default_rng_unseeded w end)
    as [rng' w1].
  destruct (match py_rng with Some g0 => (g0, w1) | None => Random_unseeded w1 end)
    as [py' w2].
  simpl in Hg. subst py'.
  pose proof (rejection_loop_spec p 1000 g) as Hloop.
  destruct (rejection_loop 1000 p g) as [[pt|] g'].
  - destruct Hloop as [Hd [(i & Hi & Hacc & [= ->] & Hpos) | (_ & [=] & _)]].
    split; [done|]. left. by exists i.
  - destruct Hloop as [Hd [(i & _ & _ & [=] & _) | (Hrej & _ & Hpos)]].
    destruct (centroid p) as [cx cy]. split; [done|]. right. done.
Qed.

End Sampler.

(** C2 as the specification words it fails: a candidate on the boundary
    of the polygon is covered by it, yet the sampler refuses it and goes
    on to the next candidate. *)
Lemma boundary_candidate_is_rejected :
  covers ex_square (candidate ex_square ex_generator 0).1
                   (candidate ex_square ex_generator 0).2 = true
  /\ (random_point_in_polygon ex_world ex_square None (Some ex_generator)).1.1
     <> ((candidate ex_square ex_generator 0).2, (candidate ex_square ex_generator 0).1).
Proof.
  split; [by vm_compute|].
  vm_compute. intros Heq. inversion Heq.
Qed.

(** ** Degenerate zones and missing columns in the evaluator *)







Lemma max_coverage_drop_column c hubs gdf radius_m :
  max_coverage hubs (drop_column c gdf) radius_m = max_coverage hubs gdf radius_m.
Proof.
  unfold max_coverage, drop_column. cbn [rows].
  rewrite length_map.
  generalize (replicate (length (rows gdf)) (Fin 0)).
  induction hubs as [|hub hubs IH]; intros acc; [done|].
  cbn [foldl]. rewrite IH. f_equal. f_equal.
  rewrite map_map. apply map_ext. intros z. reflexivity.
Qed.

Lemma column_dropped c gdf : column (drop_column c gdf) c = Raise (KeyError c).
Proof.
  unfold column, drop_column. cbn [columns].
  rewrite bool_decide_eq_false_2; [done|].
  rewrite elem_of_difference, elem_of_singleton. tauto.
Qed.

Lemma column_drop_other c c' gdf :
  c <> c' -> column (drop_column c gdf) c' = column gdf c'.
Proof.
  intros Hne. unfold column, drop_column. cbn [columns rows].
  assert (Hin : bool_decide (c' ∈ columns gdf ∖ {[c]}) = bool_decide (c' ∈ columns gdf)).
  { apply bool_decide_ext. rewrite elem_of_difference, elem_of_singleton.
    split; [tauto|]. intros Hin. split; [done|]. congruence. }
  rewrite Hin. destruct (bool_decide (c' ∈ columns gdf)); [|done].
  f_equal. rewrite map_map. apply map_ext. intros z.
  unfold cell. cbn [cells]. by rewrite lookup_delete_ne.
Qed.

Lemma weighted_coverage_dropped c gdf max_cov :
  weighted_coverage (drop_column c gdf) c max_cov = Fin 0.
Proof. unfold weighted_coverage. by rewrite column_dropped. Qed.

Lemma weighted_coverage_drop_other c c' gdf max_cov :
  c <> c' ->
  weighted_coverage (drop_column c gdf) c' max_cov = weighted_coverage gdf c' max_cov.
Proof. intros Hne. unfold weighted_coverage. by rewrite column_drop_other. Qed.

Lemma weighted_coverage_missing c gdf max_cov :
  c ∉ columns gdf -> weighted_coverage gdf c max_cov = Fin 0.
Proof.
  intros Hc. unfold weighted_coverage, column.
  by rewrite bool_decide_eq_false_2.
Qed.

(** C9: a table without the demand-score column, or without the
    vehicles column, gets 0 for that weighted metric; dropping either
    column changes that one metric to 0 and leaves the other three as
    they were. *)
Theorem missing_column_degrades_one_metric (hub_locations : ndarray)
    (gdf : GeoDataFrame) (radius_m : Qc) (r : report) :
  evaluate_coverage hub_locations gdf radius_m = Ok r ->
  (config.COL_DEMAND_SCORE ∉ columns gdf -> demand_covered r = Fin 0)
  /\ (config.COL_TOTAL_VEHICLES ∉ columns gdf -> population_covered r = Fin 0)
  /\ evaluate_coverage hub_locations (drop_column config.COL_DEMAND_SCORE gdf) radius_m
     = Ok {| covered_neighborhoods := covered_neighborhoods r;
             avg_coverage := avg_coverage r;
             demand_covered := Fin 0;
             population_covered := population_covered r |}
  /\ evaluate_coverage hub_locations (drop_column config.COL_TOTAL_VEHICLES gdf) radius_m
     = Ok {| covered_neighborhoods := covered_neighborhoods r;
             avg_coverage := avg_coverage r;
             demand_covered := demand_covered r;
             population_covered := Fin 0 |}.
Proof.
  destruct hub_locations as [l|hubs]; [discriminate|].
  unfold evaluate_coverage. intros [= <-]. cbn [covered_neighborhoods avg_coverage
    demand_covered population_covered].
  split; [apply weighted_coverage_missing|].
  split; [apply weighted_coverage_missing|].
  rewrite !max_coverage_drop_column, !weighted_coverage_dropped.
  rewrite !weighted_coverage_drop_other by done. done.
Qed.

Lemma missing_column_degrades_one_metric_witness :
  exists r,
    evaluate_coverage (Mat [ex_hub_a; ex_hub_b]) ex_gdf config.COVERAGE_RADIUS_M = Ok r
    /\ evaluate_coverage (Mat [ex_hub_a; ex_hub_b])
         (drop_column config.COL_DEMAND_SCORE ex_gdf) config.COVERAGE_RADIUS_M
       = Ok {| covered_neighborhoods := covered_neighborhoods r;
               avg_coverage := avg_coverage r;
               demand_covered := Fin 0;
               population_covered := population_covered r |}.
Proof.
  eexists. split; [reflexivity|].
  eapply (proj1 (proj2 (proj2 (missing_column_degrades_one_metric _ _ _ _ _)))).
  Unshelve. reflexivity.
Defined.

(** ** Weight sanitisation and the clamp on the number of clusters *)

Lemma maximum_clamp a : maximum a (Fin 0) = clamp_negative a.
Proof. by destruct a. Qed.

Lemma clamp_negative_clamped a : clamped (clamp_negative a).
Proof.
  destruct a as [| | |x]; unfold clamped, clamp_negative; simpl; auto.
  - right. right. exists 0. done.
  - destruct (Qcltb x 0) eqn:Hx; qc_bool; right; right; eauto.
Qed.

Lemma foldl_fadd_nonfinite l : forall a,
  isfinite a = false -> isfinite (foldl fadd a l) = false.
Proof.
  induction l as [|x l IH]; intros a Ha; [done|].
  cbn [foldl]. apply IH. by destruct a, x.
Qed.

Lemma feq_nonfinite a : isfinite a = false -> feq a (Fin 0) = false.
Proof. by destruct a. Qed.

Lemma feq_zero a : feq a (Fin 0) = true <-> a = Fin 0.
Proof.
  destruct a as [| | |x]; simpl; try (split; discriminate).
  rewrite Qceqb_eq. split; [by intros ->|by intros [= ->]].
Qed.

Lemma Qc_sum_zero (s q : Qc) : 0 <= s -> 0 <= q -> s + q = 0 -> s = 0 /\ q = 0.
Proof.
  intros Hs Hq Hsum.
  assert (Hs0 : s = 0).
  { apply Qcle_antisym; [|done]. rewrite <- Hsum.
    rewrite <- (Qcplus_0_r s) at 1. by apply Qcplus_le_mono_l. }
  subst s. by rewrite Qcplus_0_l in Hsum.
Qed.

Lemma sum_clamped_zero l : forall s,
  0 <= s -> Forall clamped l ->
  (feq (foldl fadd (Fin s) l) (Fin 0) = true
   <-> s = 0 /\ Forall (fun a => a = Fin 0) l).
Proof.
  induction l as [|x l IH]; intros s Hs Hl.
  - simpl. rewrite Qceqb_eq. split; [by intros ->|by intros [-> _]].
  - inversion Hl as [|? ? Hx Hrest]; subst. cbn [foldl].
    destruct Hx as [-> | [-> | (q & -> & Hq)]].
    + rewrite feq_nonfinite by by apply foldl_fadd_nonfinite.
      split; [discriminate|]. intros [_ Hall]. by inversion Hall.
    + rewrite feq_nonfinite by by apply foldl_fadd_nonfinite.
      split; [discriminate|]. intros [_ Hall]. by inversion Hall.
    + cbn [fadd]. rewrite IH by (by auto using Qcplus_nonneg_nonneg).
      split.
      * intros [Hsum Hall]. destruct (Qc_sum_zero s q Hs Hq Hsum) as [-> ->].
        split; [done|]. by constructor.
      * intros [-> Hall]. inversion Hall as [|? ? [= ->] Hall']; subst.
        split; [by rewrite Qcplus_0_l|done].
Qed.

Lemma np_sum_clamped_zero l :
  Forall clamped l ->
  (feq (np_sum l) (Fin 0) = true <-> Forall (fun a => a = Fin 0) l).
Proof.
  intros Hl. unfold np_sum. rewrite sum_clamped_zero by done. tauto.
Qed.

(** The weights the code hands to KMeans are the ones the specification
    describes. *)
Lemma sanitize_weights_spec weights : sanitize_weights weights = spec_weights weights.
Proof.
  unfold sanitize_weights, spec_weights, ones_like.
  assert (Hmap : map (fun a => maximum a (Fin 0)) weights = map clamp_negative weights).
  { apply map_ext. intros a. apply maximum_clamp. }
  rewrite Hmap.
  assert (Hcl : Forall clamped (map clamp_negative weights)).
  { apply Forall_forall. intros a Ha. apply list_elem_of_In, in_map_iff in Ha.
    destruct Ha as (b & <- & _). apply clamp_negative_clamped. }
  destruct (feq (np_sum (map clamp_negative weights)) (Fin 0)) eqn:Hsum.
  - apply np_sum_clamped_zero in Hsum; [|done].
    rewrite decide_True by done. by rewrite map_map.
  - rewrite decide_False; [done|]. intros Hall.
    apply np_sum_clamped_zero in Hall; [|done]. congruence.
Qed.


Lemma ones_sum_nonzero {A} (l : list A) :
  l <> [] -> np_sum (map (fun _ => Fin 1) l) <> Fin 0.
Proof.
  intros Hl Hsum. apply feq_zero, np_sum_clamped_zero in Hsum.
  - destruct l; [done|]. inversion Hsum as [|? ? Hone _]. by inversion Hone.
  - apply Forall_forall. intros a Ha. apply list_elem_of_In, in_map_iff in Ha.
    destruct Ha as (b & <- & _). right. right. exists 1. split; [done|by compute].
Qed.


Section Clustering.
Context `{KMeansModel}.

Lemma weighted_kmeans_optimization_unfold coordinates weights k rs ni :
  weighted_kmeans_optimization coordinates weights k rs ni
  = (centers ← KMeans_fit coordinates (spec_weights weights)
                 (Z.min k (Z.of_nat (length coordinates))) rs ni;
     Ok (Mat centers)).
Proof. unfold weighted_kmeans_optimization. by rewrite sanitize_weights_spec. Qed.

(** C4: the weights handed to KMeans are the given weights with every
    negative one replaced by zero, or, when that leaves only zeros, the
    weight 1 for every point; in that case the call goes through on
    any valid set of points. *)
Theorem weights_are_clamped_then_uniform (coordinates : list coord)
    (weights : list fl) (k rs ni : Z) :
  weighted_kmeans_optimization coordinates weights k rs ni
  = (centers ← KMeans_fit coordinates (spec_weights weights)
                 (Z.min k (Z.of_nat (length coordinates))) rs ni;
     Ok (Mat centers))
  /\ (Forall (fun a => clamp_negative a = Fin 0) weights ->
      coordinates <> [] -> Forall finite_coord coordinates ->
      length weights = length coordinates ->
      (1 <= k)%Z -> (0 <= rs < 2 ^ 32)%Z -> (1 <= ni)%Z ->
      spec_weights weights = map (fun _ => Fin 1) weights
      /\ exists centers,
           weighted_kmeans_optimization coordinates weights k rs ni = Ok (Mat centers)).
Proof.
  split; [apply weighted_kmeans_optimization_unfold|].
  intros Hzero Hne Hfin Hlen Hk Hrs Hni.
  assert (Hones : spec_weights weights = map (fun _ => Fin 1) weights).
  { unfold spec_weights. rewrite decide_True; [done|].
    apply Forall_forall. intros a Ha. apply list_elem_of_In, in_map_iff in Ha.
    destruct Ha as (b & <- & Hb). apply list_elem_of_In in Hb.
    rewrite Forall_forall in Hzero. by apply Hzero. }
  split; [done|].
  rewrite weighted_kmeans_optimization_unfold, Hones.
  assert (Hw : weights <> []) by (destruct weights, coordinates; done).
  destruct (fit_ok coordinates (map (fun _ => Fin 1) weights)
              (Z.min k (Z.of_nat (length coordinates))) rs ni) as [C HC]; try done.
  - destruct coordinates; [done|]. cbn [length]. lia.
  - by rewrite length_map.
  - apply Forall_forall. intros a Ha. apply list_elem_of_In, in_map_iff in Ha.
    destruct Ha as (b & <- & _). exists 1. split; [done|by compute].
  - by apply ones_sum_nonzero.
  - exists C. by rewrite HC.
Qed.


End Clustering.

Lemma weights_are_clamped_then_uniform_witness :
  spec_weights [of_Z (-2); of_Z 0] = map (fun _ => Fin 1) [of_Z (-2); of_Z 0]
  /\ exists centers,
       weighted_kmeans_optimization [ex_hub_a; ex_hub_b] [of_Z (-2); of_Z 0] 5
         config.KMEANS_RANDOM_STATE config.KMEANS_N_INIT = Ok (Mat centers).
Proof.
  apply (proj2 (weights_are_clamped_then_uniform [ex_hub_a; ex_hub_b]
                  [of_Z (-2); of_Z 0] 5 config.KMEANS_RANDOM_STATE config.KMEANS_N_INIT)).
  - repeat constructor.
  - done.
  - repeat constructor.
  - reflexivity.
  - lia.
  - by vm_compute.
  - by vm_compute.
Defined.


(** ** The baseline generator *)

Lemma raises_bind {A B} (m : result A) (f : A -> result B) :
  raises m -> raises (m ≫= f).
Proof. by destruct m. Qed.

Lemma column_Ok gdf c col :
  column gdf c = Ok col -> col = map (cell c) (rows gdf).
Proof. unfold column. case_bool_decide; [by intros [= <-]|discriminate]. Qed.

Lemma fadd_nonfinite_l a b : isfinite a = false -> isfinite (fadd a b) = false.
Proof. by destruct a, b. Qed.

Lemma fadd_nonfinite_r a b : isfinite b = false -> isfinite (fadd a b) = false.
Proof. by destruct a, b. Qed.


Lemma kahan_loop_nonfinite l : forall sum c,
  isfinite sum = false -> isfinite (kahan_loop sum c l) = false.
Proof.
  induction l as [|x l IH]; intros sum c Hs; [done|].
  cbn [kahan_loop]. apply IH. by apply fadd_nonfinite_l.
Qed.

Lemma kahan_loop_finite l : forall sum c,
  isfinite sum = true -> isfinite c = true ->
  Forall (fun x => isfinite x = true) l ->
  isfinite (kahan_loop sum c l) = true.
Proof.
  induction l as [|x l IH]; intros sum c Hs Hc Hl; [done|].
  inversion Hl as [|? ? Hx Hrest]; subst. cbn [kahan_loop].
  destruct sum, c, x; try discriminate. by apply IH.
Qed.

(** A division by a zero total never gives a number. *)
Lemma fdiv_zero_nonfinite a : isfinite (fdiv a (Fin 0)) = false.
Proof. destruct a as [| | |x]; try reflexivity. simpl. by destruct (sgn x). Qed.

(** The sampler refuses a probability vector whose sum is not a number
    or not finite. *)
Lemma choice_raises_nonfinite_sum {A} w g (a : list A) size p :
  isfinite (kahan_sum w p) = false -> raises (choice w g a size p).
Proof.
  intros Hs. unfold choice.
  destruct (_ && _); [done|]. destruct (negb _); [done|].
  destruct (kahan_sum w p); try done; simpl; by destruct (existsb _ p).
Qed.

(** It refuses an empty one as well, whatever the out-of-bounds read of
    its first entry returns. *)
Lemma choice_raises_empty {A} w g (a : list A) size :
  raises (choice w g a size []).
Proof.
  unfold choice.
  destruct (_ && _); [done|]. destruct (negb _); [done|].
  cbn [kahan_sum existsb cumsum last].
  destruct (isnan _); [done|]. by destruct (fgt _ _).
Qed.


Section Baseline.
Context `{RandomSources}.

(** C3: when the weights of the chosen column add up to zero, the
    generator raises: every probability is a division by zero, and the
    sampler refuses the vector.  No location is returned. *)
Theorem zero_total_weight_fails (w : world) (gdf : GeoDataFrame) (n_hubs : Z)
    (weight_column : string) (seed : Z) (col : list fl) :
  column gdf weight_column = Ok col ->
  np_sum (map (fillna (Fin 0)) col) = Fin 0 ->
  exists e, generate_population_weighted_locations w gdf n_hubs weight_column seed
            = Raise e.
Proof.
  intros Hcol Hsum.
  assert (Hr : raises (generate_population_weighted_locations w gdf n_hubs
                         weight_column seed)).
  { unfold generate_population_weighted_locations.
    destruct (default_rng_checked seed) as [rng|e]; [|done].
    cbn [mbind result_bind]. rewrite Hcol. cbn [mbind result_bind].
    apply raises_bind. unfold baseline_probabilities. cbv zeta. rewrite Hsum.
    destruct (map (fillna (Fin 0)) col) as [|a weights].
    - apply choice_raises_empty.
    - apply choice_raises_nonfinite_sum. cbn [map kahan_sum].
      apply kahan_loop_nonfinite, fdiv_zero_nonfinite. }
  destruct (generate_population_weighted_locations _ _ _ _ _); [done|eauto].
Qed.

End Baseline.

Lemma zero_total_weight_fails_witness :
  column ex_gdf_zero config.COL_TOTAL_VEHICLES = Ok [of_Z 0; of_Z 0]
  /\ exists e, generate_population_weighted_locations ex_world ex_gdf_zero 2
                 config.COL_TOTAL_VEHICLES 42 = Raise e.
Proof.
  split; [reflexivity|].
  apply (zero_total_weight_fails ex_world ex_gdf_zero 2 config.COL_TOTAL_VEHICLES 42
           [of_Z 0; of_Z 0]); reflexivity.
Defined.


Lemma Qcltb_irrefl_pos (s : Qc) : 0 < s -> Qceqb s 0 = false.
Proof.
  intros Hs. apply Qceqb_neq. intros ->. by apply (Qclt_not_eq 0 0).
Qed.

Lemma existsb_elem {A} (f : A -> bool) (l : list A) (a : A) :
  a ∈ l -> f a = true -> existsb f l = true.
Proof.
  intros Ha Hf. apply existsb_exists. exists a. split; [|done].
  by apply list_elem_of_In.
Qed.

Section Baseline_negative.
Context `{RandomSources}.


End Baseline_negative.



(** ** Determinism of the baseline generator *)

Section Determinism.
Context `{RandomSources}.

(** With both generators supplied, the sampler reads nothing from the
    world. *)
Lemma random_point_in_polygon_world w1 w2 p rng py_rng :
  (random_point_in_polygon w1 p (Some rng) (Some py_rng)).1
  = (random_point_in_polygon w2 p (Some rng) (Some py_rng)).1
  /\ (random_point_in_polygon w1 p (Some rng) (Some py_rng)).2 = w1.
Proof.
  unfold random_point_in_polygon.
  destruct (rejection_loop 1000 p py_rng) as [[pt|] g]; [done|].
  by destruct (centroid p).
Qed.

Lemma sample_locations_world gdf rng sampled_indices : forall w1 w2 py_rng,
  sample_locations w1 gdf rng py_rng sampled_indices
  = sample_locations w2 gdf rng py_rng sampled_indices.
Proof.
  induction sampled_indices as [|idx rest IH]; intros w1 w2 py_rng; [done|].
  cbn [sample_locations].
  destruct (loc_geometry gdf idx) as [[p|]|e]; try done.
  cbn [mbind result_bind].
  destruct (random_point_in_polygon_world w1 w2 p rng py_rng) as [Hpt Hw].
  destruct (random_point_in_polygon w1 p (Some rng) (Some py_rng)) as [[pt1 g1] w1'].
  destruct (random_point_in_polygon w2 p (Some rng) (Some py_rng)) as [[pt2 g2] w2'].
  simpl in Hpt. injection Hpt as -> ->.
  by rewrite (IH w1' w2' g2).
Qed.

(** The sampler's outcome depends on the world only in which error an
    empty probability vector raises. *)
Lemma choice_world {A} w1 w2 g (a : list A) size p :
  returned (choice w1 g a size p) = returned (choice w2 g a size p).
Proof.
  destruct p as [|x p].
  - pose proof (choice_raises_empty w1 g a size) as H1.
    pose proof (choice_raises_empty w2 g a size) as H2.
    by destruct (choice w1 g a size []), (choice w2 g a size []).
  - reflexivity.
Qed.

(** C7: the locations the baseline generator returns are a function of
    the zone table, the hub count, the weight column and the seed: two
    calls that agree on these return the same points in the same order,
    whatever the state of the process around them. *)
Theorem baseline_is_deterministic (w1 w2 : world) (gdf : GeoDataFrame)
    (n_hubs : Z) (weight_column : string) (seed : Z) :
  returned (generate_population_weighted_locations w1 gdf n_hubs weight_column seed)
  = returned (generate_population_weighted_locations w2 gdf n_hubs weight_column seed).
Proof.
  unfold generate_population_weighted_locations.
  destruct (default_rng_checked seed) as [rng|e]; [|done].
  cbn [mbind result_bind].
  destruct (column gdf weight_column) as [col|e]; [|done].
  cbn [mbind result_bind].
  pose proof (choice_world w1 w2 rng (index gdf) n_hubs (baseline_probabilities col))
    as Hchoice.
  destruct (choice w1 rng (index gdf) n_hubs (baseline_probabilities col))
    as [[idx1 g1]|e1],
    (choice w2 rng (index gdf) n_hubs (baseline_probabilities col))
    as [[idx2 g2]|e2]; try done.
  injection Hchoice as -> ->. cbn [mbind result_bind].
  by rewrite (sample_locations_world gdf g2 idx2 w1 w2 (Random seed)).
Qed.

End Determinism.

(** ** The A/B simulation *)

Lemma Qc_inject_nonneg (z : Z) : (0 <= z)%Z -> 0 <= Q2Qc (inject_Z z).
Proof.
  intros Hz. unfold Qcle.
  change (this (Q2Qc (inject_Z z))) with (Qred (inject_Z z)).
  change (this (Q2Qc 0)) with (inject_Z 0).
  rewrite Qred_correct. by rewrite <- Zle_Qle.
Qed.

Lemma Qc_inject_pos (z : Z) : (0 < z)%Z -> 0 < Q2Qc (inject_Z z).
Proof.
  intros Hz. unfold Qclt.
  change (this (Q2Qc (inject_Z z))) with (Qred (inject_Z z)).
  change (this (Q2Qc 0)) with (inject_Z 0).
  rewrite Qred_correct. by rewrite <- Zlt_Qlt.
Qed.

Lemma Qcdiv_nonneg (a b : Qc) : 0 <= a -> 0 < b -> 0 <= a / b.
Proof.
  intros Ha Hb. unfold Qcdiv. apply Qcmult_nonneg_nonneg; [done|].
  by apply Qclt_le_weak, Qcinv_pos.
Qed.




Lemma foldl_fadd_valid l : forall s,
  0 <= s -> Forall valid_weight l -> valid_weight (foldl fadd (Fin s) l).
Proof.
  induction l as [|x l IH]; intros s Hs Hl; [by exists s|].
  inversion Hl as [|? ? (q & -> & Hq) Hrest]; subst. cbn [foldl fadd].
  apply IH; [|done]. by apply Qcplus_nonneg_nonneg.
Qed.

Lemma np_sum_valid l : Forall valid_weight l -> valid_weight (np_sum l).
Proof. intros Hl. by apply foldl_fadd_valid. Qed.





Lemma max_coverage_length hubs gdf radius_m :
  length (max_coverage hubs gdf radius_m) = length (rows gdf).
Proof.
  unfold max_coverage.
  assert (Hgen : forall acc, length acc = length (rows gdf) ->
    length (foldl (fun acc hub =>
         zip_with maximum acc (map (coverage_pct radius_m hub) (rows gdf))) acc hubs)
    = length (rows gdf)).
  { induction hubs as [|hub hubs IH]; intros acc Hacc; [done|].
    cbn [foldl]. apply IH. rewrite length_zip_with, length_map. lia. }
  apply Hgen, length_replicate.
Qed.





(** What the sampler has accepted when it returns. *)
Lemma choice_Ok {A} w g (a : list A) size p r :
  choice w g a size p = Ok r ->
  p <> [] /\ isfinite (kahan_sum w p) = true
  /\ isnan (kahan_sum w p) = false
  /\ existsb (fun x => flt x (Fin 0)) p = false.
Proof.
  intros Hch. split; [|split].
  - intros ->. pose proof (choice_raises_empty w g a size) as Hr.
    by rewrite Hch in Hr.
  - destruct (isfinite (kahan_sum w p)) eqn:Hf; [done|].
    pose proof (choice_raises_nonfinite_sum w g a size p Hf) as Hr.
    by rewrite Hch in Hr.
  - unfold choice in Hch.
    destruct (_ && _); [discriminate|]. destruct (negb _); [discriminate|].
    destruct (isnan _); [discriminate|].
    by destruct (existsb _ p); [discriminate|].
Qed.








Section Simulation.
Context `{RandomSources} `{KMeansModel}.








End Simulation.




(** * Further properties of the evaluator *)

Lemma coverage_pct_unit radius_m hub z : unit_interval (coverage_pct radius_m hub z).
Proof. apply coverage_pct_range. Qed.

Lemma maximum_unit a b : unit_interval a -> unit_interval b -> unit_interval (maximum a b).
Proof.
  intros (x & -> & Hx) (y & -> & Hy). simpl. destruct (Qcltb x y); eauto.
  all: eexists; split; [reflexivity|done].
Qed.

Lemma unit_interval_valid a : unit_interval a -> valid_weight a.
Proof. intros (q & -> & Hq & _). by exists q. Qed.

(** The loop keeps every entry of the coverage array a fraction: it
    starts from zeros and takes maxima with clipped fractions. *)
Lemma max_coverage_unit (hubs : list coord) (gdf : GeoDataFrame) (radius_m : Qc) :
  Forall unit_interval (max_coverage hubs gdf radius_m).
Proof.
  apply Forall_lookup. intros i a Ha.
  assert (Hi : (i < length (rows gdf))%nat).
  { rewrite <- (max_coverage_length hubs gdf radius_m). by eapply lookup_lt_Some. }
  destruct (lookup_lt_is_Some_2 _ _ Hi) as [z Hz].
  rewrite (max_coverage_lookup _ _ _ _ _ Hz) in Ha. injection Ha as <-.
  assert (Hgen : forall m, unit_interval m ->
    unit_interval (foldl (fun m hub => maximum m (coverage_pct radius_m hub z)) m hubs)).
  { induction hubs as [|hub hubs IH]; intros m Hm; [done|].
    cbn [foldl]. apply IH. apply maximum_unit; [done|apply coverage_pct_unit]. }
  apply Hgen. exists 0. split; [done|]. split; by compute.
Qed.

(** X1: Every zone's coverage after the loop is a fraction between 0 and 1,
    whatever areas the geometry reports, and there is one per zone. *)
Theorem coverage_fractions_in_unit_interval (hubs : list coord) (gdf : GeoDataFrame)
    (radius_m : Qc) :
  length (max_coverage hubs gdf radius_m) = length (rows gdf)
  /\ Forall unit_interval (max_coverage hubs gdf radius_m).
Proof.
  split.
  - apply max_coverage_length.
  - apply max_coverage_unit.
Qed.

(** Sums of numbers that are pointwise below other numbers. *)
Lemma foldl_fadd_le l1 : forall l2 s1 s2,
  s1 <= s2 ->
  Forall2 (fun a b => exists x y, a = Fin x /\ b = Fin y /\ x <= y) l1 l2 ->
  exists t1 t2, foldl fadd (Fin s1) l1 = Fin t1 /\ foldl fadd (Fin s2) l2 = Fin t2
                /\ t1 <= t2.
Proof.
  induction l1 as [|a l1 IH]; intros l2 s1 s2 Hs Hl.
  - inversion Hl; subst. by exists s1, s2.
  - inversion Hl as [|? b ? l2' (x & y & -> & -> & Hxy) Hrest]; subst.
    cbn [foldl fadd]. apply IH; [|done]. by apply Qcplus_le_compat.
Qed.

Lemma Qc_inject_succ (n : nat) :
  Q2Qc (inject_Z (Z.of_nat n)) + 1 = Q2Qc (inject_Z (Z.of_nat (S n))).
Proof.
  apply Qc_is_canon. cbn [this Qcplus Q2Qc].
  rewrite !Qred_correct. rewrite Nat2Z.inj_succ, <- Z.add_1_r.
  rewrite inject_Z_plus. reflexivity.
Qed.

Lemma foldl_fadd_ones {A} (l : list A) : forall n : nat,
  foldl fadd (of_nat n) (map (fun _ => Fin 1) l) = of_nat (n + length l).
Proof.
  induction l as [|a l IH]; intros n.
  - cbn [map foldl length]. by rewrite Nat.add_0_r.
  - cbn [map foldl length]. unfold of_nat at 1, of_Z. cbn [fadd].
    rewrite Qc_inject_succ. fold (of_Z (Z.of_nat (S n))). fold (of_nat (S n)).
    rewrite IH. f_equal. lia.
Qed.

Lemma np_sum_unit_le_length l :
  Forall unit_interval l ->
  exists t, np_sum l = Fin t /\ 0 <= t /\ t <= Q2Qc (inject_Z (Z.of_nat (length l))).
Proof.
  intros Hl.
  destruct (foldl_fadd_le l (map (fun _ => Fin 1) l) 0 0) as (t1 & t2 & H1 & H2 & Hle).
  - done.
  - induction Hl as [|a l (q & -> & _ & Hq) _ IH]; constructor; [|done].
    by exists q, 1.
  - exists t1. split; [done|]. split.
    + assert (Hv : valid_weight (np_sum l)).
      { apply np_sum_valid. eapply Forall_impl; [exact Hl|]. apply unit_interval_valid. }
      destruct Hv as (t & Ht & Ht0). unfold np_sum in Ht. rewrite H1 in Ht.
      by injection Ht as ->.
    + pose proof (foldl_fadd_ones l 0) as Hones. cbn [Nat.add] in Hones.
      change (of_nat 0) with (Fin 0) in Hones. rewrite H2 in Hones.
      injection Hones as ->. done.
Qed.

Lemma Qcdiv_le_one (t n : Qc) : 0 < n -> t <= n -> t / n <= 1.
Proof.
  intros Hn Ht. unfold Qcdiv.
  rewrite <- (Qcmult_inv_r n) by (intros ->; by apply (Qclt_not_eq 0 0)).
  apply Qcmult_le_compat_r; [done|]. by apply Qclt_le_weak, Qcinv_pos.
Qed.

Lemma percentage_of_fraction (q : Qc) :
  0 <= q -> q <= 1 -> percentage (fmul (Fin q) (of_Z 100)).
Proof.
  intros H0 H1. eexists. split; [reflexivity|]. split.
  - apply Qcmult_nonneg_nonneg; [done|]. by apply Qc_inject_nonneg.
  - rewrite <- (Qcmult_1_l (Q2Qc (inject_Z 100))) at 2.
    apply Qcmult_le_compat_r; [done|]. by apply Qc_inject_nonneg.
Qed.

(** X2: The report of a non-empty table: the count of covered zones lies
    between 0 and the number of zones, the average coverage is a
    percentage. *)
Theorem report_bounds (hub_locations : ndarray) (gdf : GeoDataFrame)
    (radius_m : Qc) (r : report) :
  evaluate_coverage hub_locations gdf radius_m = Ok r ->
  (0 <= covered_neighborhoods r <= Z.of_nat (length (rows gdf)))%Z
  /\ (rows gdf <> [] -> percentage (avg_coverage r)).
Proof.
  destruct hub_locations as [l|hubs]; [discriminate|].
  unfold evaluate_coverage. intros [= <-].
  cbn [covered_neighborhoods avg_coverage].
  pose proof (max_coverage_length hubs gdf radius_m) as Hlen.
  pose proof (max_coverage_unit hubs gdf radius_m) as Hunit.
  split.
  - split; [lia|]. rewrite <- Hlen. apply inj_le, length_filter.
  - intros Hrows. unfold np_mean.
    destruct (np_sum_unit_le_length _ Hunit) as (t & -> & Ht0 & Ht).
    rewrite Hlen in *.
    assert (Hn : 0 < Q2Qc (inject_Z (Z.of_nat (length (rows gdf))))).
    { apply Qc_inject_pos. destruct (rows gdf); [done|]. cbn [length]. lia. }
    unfold of_nat, of_Z at 1. cbn [fdiv]. rewrite Qcltb_irrefl_pos by done.
    apply percentage_of_fraction; [by apply Qcdiv_nonneg|by apply Qcdiv_le_one].
Qed.

Lemma report_bounds_witness :
  exists r,
    evaluate_coverage (Mat [ex_hub_a; ex_hub_b]) ex_gdf config.COVERAGE_RADIUS_M = Ok r
    /\ (0 <= covered_neighborhoods r <= Z.of_nat (length (rows ex_gdf)))%Z
    /\ percentage (avg_coverage r).
Proof.
  eexists. split; [reflexivity|].
  destruct (report_bounds (Mat [ex_hub_a; ex_hub_b]) ex_gdf config.COVERAGE_RADIUS_M _
              eq_refl) as [Hcount Havg].
  split; [exact Hcount|]. by apply Havg.
Defined.


Lemma filter_notnan_fin q l :
  filter (fun a => isnan a = false) (Fin q :: l)
  = Fin q :: filter (fun a => isnan a = false) l.
Proof. by rewrite filter_cons_True. Qed.






(** X4: On a table without zones the average coverage is the mean of an
    empty array, NaN; the three other metrics are 0. *)
Theorem empty_table_report (hubs : list coord) (gdf : GeoDataFrame) (radius_m : Qc) :
  rows gdf = [] ->
  evaluate_coverage (Mat hubs) gdf radius_m
  = Ok {| covered_neighborhoods := 0; avg_coverage := NaN;
          demand_covered := Fin 0; population_covered := Fin 0 |}.
Proof.
  intros Hrows. unfold evaluate_coverage.
  assert (Hcov : max_coverage hubs gdf radius_m = []).
  { apply length_zero_iff_nil. by rewrite max_coverage_length, Hrows. }
  rewrite Hcov.
  assert (Hw : forall c, weighted_coverage gdf c [] = Fin 0).
  { intros c. unfold weighted_coverage, column. rewrite Hrows.
    by destruct (bool_decide _). }
  by rewrite !Hw.
Qed.

Lemma empty_table_report_witness :
  evaluate_coverage (Mat [ex_hub_a]) {| columns := ex_columns; rows := [] |}
    config.COVERAGE_RADIUS_M
  = Ok {| covered_neighborhoods := 0; avg_coverage := NaN;
          demand_covered := Fin 0; population_covered := Fin 0 |}.
Proof. apply empty_table_report. reflexivity. Defined.

(** ** Coverage as a function of the set of hubs *)

Lemma fle_refl a : unit_interval a -> fle a a.
Proof. intros (q & -> & _). exists q, q. repeat split; apply Qcle_refl. Qed.

Lemma fle_trans a b c : fle a b -> fle b c -> fle a c.
Proof.
  intros (x & y & -> & -> & Hxy) (y' & z & [= <-] & -> & Hyz).
  exists x, z. repeat split; by eapply Qcle_trans.
Qed.

Lemma fle_antisym a b : fle a b -> fle b a -> a = b.
Proof.
  intros (x & y & -> & -> & Hxy) (y' & x' & [= <-] & [= <-] & Hyx).
  f_equal. by apply Qcle_antisym.
Qed.

Lemma maximum_fle_l a b : unit_interval a -> unit_interval b -> fle a (maximum a b).
Proof.
  intros (x & -> & _) (y & -> & _). simpl.
  destruct (Qcltb x y) eqn:Hxy; qc_bool.
  - exists x, y. repeat split. by apply Qclt_le_weak.
  - exists x, x. repeat split. apply Qcle_refl.
Qed.

Lemma maximum_fle_r a b : unit_interval a -> unit_interval b -> fle b (maximum a b).
Proof.
  intros (x & -> & _) (y & -> & _). simpl.
  destruct (Qcltb x y) eqn:Hxy; qc_bool.
  - exists y, y. repeat split. apply Qcle_refl.
  - by exists y, x.
Qed.

Lemma maximum_choice a b :
  unit_interval a -> unit_interval b -> maximum a b = a \/ maximum a b = b.
Proof.
  intros (x & -> & _) (y & -> & _). simpl. destruct (Qcltb x y); auto.
Qed.

Section Fold_maximum.
Context {A : Type} (c : A -> fl) (Hc : forall h, unit_interval (c h)).

Lemma fold_maximum_unit l : forall m,
  unit_interval m -> unit_interval (foldl (fun m h => maximum m (c h)) m l).
Proof.
  induction l as [|h l IH]; intros m Hm; [done|].
  cbn [foldl]. apply IH. by apply maximum_unit.
Qed.

Lemma fold_maximum_ge_init l : forall m,
  unit_interval m -> fle m (foldl (fun m h => maximum m (c h)) m l).
Proof.
  induction l as [|h l IH]; intros m Hm; [by apply fle_refl|].
  cbn [foldl]. eapply fle_trans; [by apply (maximum_fle_l m (c h))|].
  apply IH. by apply maximum_unit.
Qed.

Lemma fold_maximum_ge_elem l : forall m h,
  unit_interval m -> h ∈ l -> fle (c h) (foldl (fun m h => maximum m (c h)) m l).
Proof.
  induction l as [|h' l IH]; intros m h Hm Hin; [by apply elem_of_nil in Hin|].
  cbn [foldl]. apply elem_of_cons in Hin as [->|Hin].
  - eapply fle_trans; [by apply (maximum_fle_r m (c h'))|].
    apply fold_maximum_ge_init. by apply maximum_unit.
  - apply IH; [by apply maximum_unit|done].
Qed.

Lemma fold_maximum_attained l : forall m,
  unit_interval m ->
  foldl (fun m h => maximum m (c h)) m l = m
  \/ exists h, h ∈ l /\ foldl (fun m h => maximum m (c h)) m l = c h.
Proof.
  induction l as [|h l IH]; intros m Hm; [by left|].
  cbn [foldl]. destruct (IH (maximum m (c h)) (maximum_unit _ _ Hm (Hc h)))
    as [Heq | (h' & Hin & Heq)].
  - rewrite Heq. destruct (maximum_choice m (c h) Hm (Hc h)) as [->| ->]; [by left|].
    right. exists h. split; [apply list_elem_of_here|done].
  - right. exists h'. split; [by apply list_elem_of_further|done].
Qed.

Lemma fold_maximum_subset l l' m :
  unit_interval m -> (forall h, h ∈ l -> h ∈ l') ->
  fle (foldl (fun m h => maximum m (c h)) m l)
      (foldl (fun m h => maximum m (c h)) m l').
Proof.
  intros Hm Hsub. destruct (fold_maximum_attained l m Hm) as [-> | (h & Hin & ->)].
  - by apply fold_maximum_ge_init.
  - apply fold_maximum_ge_elem; [done|]. by apply Hsub.
Qed.

End Fold_maximum.

Lemma max_coverage_subset hubs hubs' gdf radius_m i a b :
  (forall h, h ∈ hubs -> h ∈ hubs') ->
  max_coverage hubs gdf radius_m !! i = Some a ->
  max_coverage hubs' gdf radius_m !! i = Some b ->
  fle a b.
Proof.
  intros Hsub Ha Hb.
  assert (Hi : (i < length (rows gdf))%nat).
  { rewrite <- (max_coverage_length hubs gdf radius_m). by eapply lookup_lt_Some. }
  destruct (lookup_lt_is_Some_2 _ _ Hi) as [z Hz].
  rewrite (max_coverage_lookup hubs _ _ _ _ Hz) in Ha.
  rewrite (max_coverage_lookup hubs' _ _ _ _ Hz) in Hb.
  injection Ha as <-. injection Hb as <-.
  apply (fold_maximum_subset (fun hub => coverage_pct radius_m hub z)); try done.
  - intros h. apply coverage_pct_unit.
  - exists 0. split; [done|]. split; by compute.
Qed.

(** X5: The report depends on the set of hubs only: their order and their
    repetitions in the array change no metric. *)
Theorem report_depends_on_hub_set (hubs hubs' : list coord) (gdf : GeoDataFrame)
    (radius_m : Qc) :
  (forall h, h ∈ hubs <-> h ∈ hubs') ->
  evaluate_coverage (Mat hubs) gdf radius_m = evaluate_coverage (Mat hubs') gdf radius_m.
Proof.
  intros Hsame.
  assert (Hcov : max_coverage hubs gdf radius_m = max_coverage hubs' gdf radius_m).
  { apply list_eq. intros i.
    destruct (max_coverage hubs gdf radius_m !! i) as [a|] eqn:Ha,
             (max_coverage hubs' gdf radius_m !! i) as [b|] eqn:Hb.
    - f_equal. apply fle_antisym.
      + eapply (max_coverage_subset hubs hubs'); [|done..]. intros h. apply Hsame.
      + eapply (max_coverage_subset hubs' hubs); [|done..]. intros h. apply Hsame.
    - apply lookup_lt_Some in Ha. apply lookup_ge_None in Hb.
      rewrite max_coverage_length in Ha, Hb. lia.
    - apply lookup_lt_Some in Hb. apply lookup_ge_None in Ha.
      rewrite max_coverage_length in Ha, Hb. lia.
    - done. }
  unfold evaluate_coverage. by rewrite Hcov.
Qed.

Lemma report_depends_on_hub_set_witness :
  evaluate_coverage (Mat [ex_hub_a; ex_hub_b]) ex_gdf config.COVERAGE_RADIUS_M
  = evaluate_coverage (Mat [ex_hub_b; ex_hub_a; ex_hub_b]) ex_gdf config.COVERAGE_RADIUS_M.
Proof.
  apply report_depends_on_hub_set. intros h.
  rewrite !elem_of_cons, !elem_of_nil. tauto.
Defined.

Lemma filter_length_mono {A} (P : A -> Prop) `{forall x, Decision (P x)}
    (R : A -> A -> Prop) (l1 l2 : list A) :
  (forall a b, R a b -> P a -> P b) -> Forall2 R l1 l2 ->
  (length (filter P l1) <= length (filter P l2))%nat.
Proof.
  intros HR. induction 1 as [|a b l1 l2 Hab _ IH]; [done|].
  rewrite !filter_cons. destruct (decide (P a)) as [Ha|Ha].
  - rewrite decide_True by by eapply HR. cbn [length]. lia.
  - destruct (decide (P b)); cbn [length]; lia.
Qed.

(** X6: Hubs added to a set never lower a zone's coverage, nor the number
    of covered zones. *)
Theorem more_hubs_never_cover_less (hubs extra : list coord) (gdf : GeoDataFrame)
    (radius_m : Qc) (r r' : report) :
  evaluate_coverage (Mat hubs) gdf radius_m = Ok r ->
  evaluate_coverage (Mat (hubs ++ extra)) gdf radius_m = Ok r' ->
  Forall2 fle (max_coverage hubs gdf radius_m)
              (max_coverage (hubs ++ extra) gdf radius_m)
  /\ (covered_neighborhoods r <= covered_neighborhoods r')%Z.
Proof.
  unfold evaluate_coverage. intros [= <-] [= <-]. cbn [covered_neighborhoods].
  assert (Hle : Forall2 fle (max_coverage hubs gdf radius_m)
                            (max_coverage (hubs ++ extra) gdf radius_m)).
  { apply Forall2_same_length_lookup. split.
    - by rewrite !max_coverage_length.
    - intros i a b Ha Hb. eapply (max_coverage_subset hubs (hubs ++ extra)); [|done..].
      intros h Hh. apply elem_of_app. by left. }
  split; [done|]. apply inj_le.
  eapply (filter_length_mono _ fle); [|exact Hle].
  intros a b (x & y & -> & -> & Hxy). cbn [fgt flt]. rewrite !Qcltb_lt.
  intros Hx. by eapply Qclt_le_trans.
Qed.

Lemma more_hubs_never_cover_less_witness :
  exists r r',
    evaluate_coverage (Mat [ex_hub_a]) ex_gdf config.COVERAGE_RADIUS_M = Ok r
    /\ evaluate_coverage (Mat ([ex_hub_a] ++ [ex_hub_b])) ex_gdf config.COVERAGE_RADIUS_M
       = Ok r'
    /\ (covered_neighborhoods r <= covered_neighborhoods r')%Z.
Proof.
  eexists. eexists. split; [reflexivity|]. split; [reflexivity|].
  eapply (proj2 (more_hubs_never_cover_less [ex_hub_a] [ex_hub_b] ex_gdf
                   config.COVERAGE_RADIUS_M _ _ eq_refl eq_refl)).
Defined.

(** * Further properties of the baseline generator *)

Lemma rejection_loop_contains p : forall n g y x g',
  rejection_loop n p g = (Some (y, x), g') -> contains p x y = true.
Proof.
  induction n as [|n IH]; intros g y x g' Hloop; [discriminate|].
  cbn [rejection_loop] in Hloop.
  destruct (bounds p) as [[[minx miny] maxx] maxy].
  destruct (uniform g minx maxx) as [x1 g1].
  destruct (uniform g1 miny maxy) as [y1 g2].
  destruct (contains p x1 y1) eqn:Hin.
  - by injection Hloop as <- <- _.
  - by eapply IH.
Qed.

Section Baseline_locations.
Context `{RandomSources}.

(** The point of the sampler is inside the polygon or is its centroid. *)
Lemma random_point_in_polygon_located w p rng py_rng :
  let pt := (random_point_in_polygon w p rng py_rng).1.1 in
  contains p pt.2 pt.1 = true \/ (pt.2, pt.1) = centroid p.
Proof.
  unfold random_point_in_polygon.
  destruct (match rng with Some g => (g, w) | None => default_rng_unseeded w end)
    as [rng' w1].
  destruct (match py_rng with Some g => (g, w1) | None => Random_unseeded w1 end)
    as [py' w2].
  destruct (rejection_loop 1000 p py') as [[[y x]|] g] eqn:Hloop.
  - left. cbn. by eapply rejection_loop_contains.
  - right. by destruct (centroid p).
Qed.

Lemma sample_locations_located gdf rng sampled : forall w py_rng locs,
  sample_locations w gdf rng py_rng sampled = Ok locs ->
  length locs = length sampled /\ Forall (located_in gdf) locs.
Proof.
  induction sampled as [|idx rest IH]; intros w py_rng locs Hs.
  - injection Hs as <-. by split.
  - cbn [sample_locations] in Hs. unfold loc_geometry in Hs.
    destruct (rows gdf !! idx) as [z|] eqn:Hz; [|discriminate].
    cbn [mbind result_bind] in Hs.
    destruct (geometry z) as [p|] eqn:Hp; [|discriminate].
    pose proof (random_point_in_polygon_located w p (Some rng) (Some py_rng)) as Hpt.
    destruct (random_point_in_polygon w p (Some rng) (Some py_rng)) as [[pt g] w'].
    destruct (sample_locations w' gdf rng g rest) as [more|e] eqn:Hmore; [|discriminate].
    cbn [mbind result_bind] in Hs. injection Hs as <-.
    destruct (IH _ _ _ Hmore) as [Hlen Hall]. split; [cbn [length]; lia|].
    constructor; [|done]. exists z, p, pt.2, pt.1.
    split; [by eapply list_elem_of_lookup_2|]. split; [done|]. split; [done|].
    exact Hpt.
Qed.

(** The generator's two halves: the rows are drawn, then a point in each. *)
Lemma generate_population_weighted_locations_unfold w gdf n_hubs c seed :
  generate_population_weighted_locations w gdf n_hubs c seed
  = (rng ← default_rng_checked seed;
     col ← column gdf c;
     '(sampled, rng') ← choice w rng (index gdf) n_hubs (baseline_probabilities col);
     locations ← sample_locations w gdf rng' (Random seed) sampled;
     Ok (np_array locations)).
Proof. reflexivity. Qed.

(** X7: Every location the baseline generator returns lies in a zone of the
    table, strictly inside its polygon or at its centroid; a generator
    that returns has found a polygon in every row it drew. *)
Theorem baseline_locations_lie_in_zones (w : world) (gdf : GeoDataFrame)
    (n_hubs : Z) (weight_column : string) (seed : Z) (arr : ndarray) :
  generate_population_weighted_locations w gdf n_hubs weight_column seed = Ok arr ->
  arr = Vec [] \/ exists locs, arr = Mat locs /\ Forall (located_in gdf) locs.
Proof.
  rewrite generate_population_weighted_locations_unfold. intros Hgen.
  destruct (default_rng_checked seed) as [rng|e]; [|discriminate].
  cbn [mbind result_bind] in Hgen.
  destruct (column gdf weight_column) as [col|e]; [|discriminate].
  cbn [mbind result_bind] in Hgen.
  destruct (choice w rng (index gdf) n_hubs (baseline_probabilities col))
    as [[sampled rng']|e]; [|discriminate].
  cbn [mbind result_bind] in Hgen.
  destruct (sample_locations w gdf rng' (Random seed) sampled) as [locs|e] eqn:Hs;
    [|discriminate].
  cbn [mbind result_bind] in Hgen. injection Hgen as <-.
  destruct (sample_locations_located _ _ _ _ _ _ Hs) as [_ Hall].
  destruct locs as [|loc locs]; [by left|]. right. by eexists.
Qed.

End Baseline_locations.

Lemma baseline_locations_lie_in_zones_witness :
  exists arr,
    generate_population_weighted_locations ex_world ex_gdf 2
      config.COL_TOTAL_VEHICLES 42 = Ok arr
    /\ (arr = Vec [] \/ exists locs, arr = Mat locs /\ Forall (located_in ex_gdf) locs).
Proof.
  destruct (generate_population_weighted_locations ex_world ex_gdf 2
              config.COL_TOTAL_VEHICLES 42) as [arr|e] eqn:Hgen;
    [|vm_compute in Hgen; discriminate].
  exists arr. split; [reflexivity|].
  by eapply baseline_locations_lie_in_zones.
Defined.

(** ** When the baseline generator returns, and how many hubs *)




Lemma length_cumsum_from l : forall acc, length (cumsum_from acc l) = length l.
Proof. induction l as [|x l IH]; intros acc; [done|]. cbn. by rewrite IH. Qed.

Lemma length_cumsum l : length (cumsum l) = length l.
Proof. destruct l; [done|]. cbn. by rewrite length_cumsum_from. Qed.




Lemma random_n_spec n : forall g us g',
  random_n n g = (us, g') ->
  length us = n /\ draws g' = draws g /\ Forall (fun u => exists k, u = draws g k) us.
Proof.
  induction n as [|n IH]; intros g us g' Hr.
  - injection Hr as <- <-. by repeat split.
  - cbn [random_n random] in Hr.
    destruct (random_n n {| draws := draws g; pos := S (pos g) |}) as [us' g2] eqn:Hn.
    injection Hr as <- <-. destruct (IH _ _ _ Hn) as (Hlen & Hd & Hall).
    cbn [draws] in *. split; [cbn [length]; lia|]. split; [done|].
    constructor; [by eexists|done].
Qed.




Section Baseline_success.
Context `{RandomSources}.



End Baseline_success.


(** ** A request for no hub *)

Lemma choice_size_zero {A} w g (a : list A) p xs g' :
  choice w g a 0 p = Ok (xs, g') -> xs = [] /\ g' = g.
Proof.
  unfold choice. destruct (_ && _); [discriminate|]. destruct (negb _); [discriminate|].
  destruct (isnan _); [discriminate|]. destruct (existsb _ p); [discriminate|].
  destruct (fgt _ _); [discriminate|]. destruct (last _); [|discriminate].
  cbn. by intros [= <- <-].
Qed.

Section Baseline_zero.
Context `{RandomSources}.

(** X9: Asked for 0 hubs, the baseline generator returns, when it returns,
    the array of shape (0,): [evaluate_coverage] cannot take its second
    column and raises IndexError on it, whatever the zone table. *)
Theorem zero_hubs_cannot_be_evaluated (w : world) (gdf gdf' : GeoDataFrame)
    (weight_column : string) (seed : Z) (arr : ndarray) (radius_m : Qc) :
  generate_population_weighted_locations w gdf 0 weight_column seed = Ok arr ->
  arr = Vec []
  /\ evaluate_coverage arr gdf' radius_m
     = Raise (IndexError "too many indices for array").
Proof.
  rewrite generate_population_weighted_locations_unfold. intros Hgen.
  destruct (default_rng_checked seed) as [rng|e]; [|discriminate].
  cbn [mbind result_bind] in Hgen.
  destruct (column gdf weight_column) as [col|e]; [|discriminate].
  cbn [mbind result_bind] in Hgen.
  destruct (choice w rng (index gdf) 0 (baseline_probabilities col))
    as [[sampled rng']|e] eqn:Hch; [|discriminate].
  apply choice_size_zero in Hch as [-> ->].
  cbn in Hgen. injection Hgen as <-. done.
Qed.

End Baseline_zero.

Lemma zero_hubs_cannot_be_evaluated_witness :
  exists arr,
    generate_population_weighted_locations ex_world ex_gdf 0
      config.COL_TOTAL_VEHICLES 42 = Ok arr
    /\ arr = Vec []
    /\ evaluate_coverage arr ex_gdf config.COVERAGE_RADIUS_M
       = Raise (IndexError "too many indices for array").
Proof.
  destruct (generate_population_weighted_locations ex_world ex_gdf 0
              config.COL_TOTAL_VEHICLES 42) as [arr|e] eqn:Hgen;
    [|vm_compute in Hgen; discriminate].
  exists arr. split; [reflexivity|].
  by eapply zero_hubs_cannot_be_evaluated.
Defined.

(** ** Which rows the baseline generator draws *)

Lemma kahan_loop_nonfinite_entry l : forall sum c,
  Exists (fun x => isfinite x = false) l -> isfinite (kahan_loop sum c l) = false.
Proof.
  induction l as [|x l IH]; intros sum c Hex; [by inversion Hex|].
  cbn [kahan_loop]. inversion Hex as [? ? Hx|? ? Hl]; subst.
  - apply kahan_loop_nonfinite, fadd_nonfinite_r. unfold fsub.
    by apply fadd_nonfinite_l.
  - by apply IH.
Qed.

Lemma kahan_sum_finite_entries w p :
  p <> [] -> isfinite (kahan_sum w p) = true -> Forall (fun x => isfinite x = true) p.
Proof.
  intros Hne Hk. destruct p as [|x l]; [done|]. cbn [kahan_sum] in Hk.
  destruct (decide (Forall (fun x => isfinite x = true) (x :: l))) as [|Hnot]; [done|].
  exfalso. apply not_Forall_Exists in Hnot; [|apply _].
  assert (Hex : Exists (fun x => isfinite x = false) (x :: l)).
  { eapply Exists_impl; [exact Hnot|]. intros a Ha. unfold compose in Ha.
    by destruct (isfinite a). }
  inversion Hex as [? ? Hx|? ? Hl]; subst.
  - by rewrite kahan_loop_nonfinite in Hk.
  - by rewrite kahan_loop_nonfinite_entry in Hk.
Qed.

Lemma not_negative_valid l :
  Forall (fun x => isfinite x = true) l ->
  existsb (fun x => flt x (Fin 0)) l = false -> Forall valid_weight l.
Proof.
  induction 1 as [|a l Ha _ IH]; intros Hneg; [done|].
  cbn [existsb] in Hneg. apply orb_false_iff in Hneg as [Ha0 Hl].
  constructor; [|by apply IH].
  destruct (isfinite_Fin _ Ha) as [q ->]. exists q. split; [done|].
  by apply Qcltb_ge.
Qed.

Lemma searchsorted_right_spec cdf u : forall i,
  searchsorted_right cdf u = i -> (i < length cdf)%nat ->
  (exists c, cdf !! i = Some c /\ flt u c = true)
  /\ (forall j c, (j < i)%nat -> cdf !! j = Some c -> flt u c = false).
Proof.
  induction cdf as [|x cdf IH]; intros i Hi Hlen; [cbn in Hlen; lia|].
  cbn [searchsorted_right] in Hi. destruct (flt u x) eqn:Hx.
  - subst i. split; [by exists x|]. intros j c Hj. lia.
  - subst i. cbn [length] in Hlen.
    destruct (IH _ eq_refl ltac:(lia)) as [Hat Hbefore].
    split; [exact Hat|]. intros j c Hj Hc. destruct j as [|j].
    + by injection Hc as <-.
    + eapply Hbefore; [|exact Hc]. lia.
Qed.

Lemma cumsum_from_lookup l : forall acc j y,
  l !! j = Some y ->
  exists prev, (acc :: cumsum_from acc l) !! j = Some prev
               /\ cumsum_from acc l !! j = Some (fadd prev y).
Proof.
  induction l as [|x l IH]; intros acc j y Hy; [done|].
  destruct j as [|j].
  - injection Hy as <-. by exists acc.
  - cbn in Hy. destruct (IH (fadd acc x) j y Hy) as (prev & Hprev & Hcur).
    exists prev. by split.
Qed.

Lemma cumsum_lookup_S p j y :
  p !! S j = Some y ->
  exists prev, cumsum p !! j = Some prev /\ cumsum p !! S j = Some (fadd prev y).
Proof.
  destruct p as [|x l]; [done|]. intros Hy. cbn in Hy.
  destruct (cumsum_from_lookup l x j y Hy) as (prev & Hprev & Hcur).
  exists prev. by split.
Qed.

Lemma cumsum_from_finite l : forall acc,
  isfinite acc = true -> Forall (fun x => isfinite x = true) l ->
  Forall (fun x => isfinite x = true) (cumsum_from acc l).
Proof.
  induction l as [|x l IH]; intros acc Hacc Hl; [done|].
  inversion Hl as [|? ? Hx Hrest]; subst. cbn [cumsum_from].
  assert (Hs : isfinite (fadd acc x) = true) by by destruct acc, x.
  constructor; [done|by apply IH].
Qed.

Lemma cumsum_finite p :
  Forall (fun x => isfinite x = true) p -> Forall (fun x => isfinite x = true) (cumsum p).
Proof.
  intros Hp. destruct p as [|x l]; [done|]. inversion Hp; subst. cbn [cumsum].
  constructor; [done|by apply cumsum_from_finite].
Qed.

Lemma take_indices_seq_inv n idx : forall xs,
  take_indices (seq 0 n) idx = Ok xs ->
  xs = idx /\ Forall (fun i => (i < n)%nat) idx.
Proof.
  induction idx as [|i idx IH]; intros xs Hx.
  - injection Hx as <-. by split.
  - cbn [take_indices] in Hx. unfold take_index in Hx.
    destruct (seq 0 n !! i) as [x|] eqn:Hi; [|discriminate].
    cbn [mbind result_bind] in Hx.
    destruct (take_indices (seq 0 n) idx) as [xs'|e]; [|discriminate].
    cbn [mbind result_bind] in Hx. injection Hx as <-.
    apply lookup_seq in Hi as [-> Hlt]. destruct (IH _ eq_refl) as [-> Hall].
    split; [done|]. by constructor.
Qed.

(** What the sampler did when it returns positions of an array. *)
Lemma choice_seq_Ok w g n size p idx g' :
  choice w g (seq 0 n) size p = Ok (idx, g') ->
  exists total us,
    last (cumsum p) = Some total /\ length p = n
    /\ idx = map (fun u => searchsorted_right
                             (map (fun c => fdiv c total) (cumsum p)) (Fin u)) us
    /\ Forall (fun i => (i < n)%nat) idx
    /\ Forall (fun u => exists k, u = draws g k) us.
Proof.
  unfold choice. destruct (_ && _); [discriminate|].
  case_bool_decide as Hlen; [|discriminate]. cbn [negb].
  destruct (isnan _); [discriminate|]. destruct (existsb _ p); [discriminate|].
  destruct (fgt _ _); [discriminate|].
  destruct (last (cumsum p)) as [total|]; [|discriminate].
  destruct (bool_decide (size < 0)%Z); [discriminate|].
  destruct (random_n (Z.to_nat size) g) as [us g2] eqn:Hus.
  destruct (take_indices _ _) as [xs|e] eqn:Htake; [|discriminate].
  cbn [mbind result_bind]. intros [= <- <-].
  apply take_indices_seq_inv in Htake as [-> Hall].
  destruct (random_n_spec _ _ _ _ Hus) as (_ & _ & Hdraws).
  rewrite length_seq in Hlen.
  exists total, us. by repeat split.
Qed.

Lemma fdiv_zero_weight S :
  isfinite (fdiv (Fin 0) S) = true -> fdiv (Fin 0) S = Fin 0.
Proof.
  destruct S as [| | |s]; try done. cbn [fdiv].
  destruct (Qceqb s 0) eqn:Hs; [done|]. intros _. f_equal. apply Qcmult_0_l.
Qed.

Section Baseline_draws.
Context `{RandomSources}.

(** X10: A row whose weight is zero or missing is never drawn: every row the
    baseline generator draws has a weight other than zero. *)
Theorem zero_weight_rows_are_never_drawn (w : world) (gdf : GeoDataFrame)
    (n_hubs : Z) (weight_column : string) (seed : Z) (col : list fl)
    (sampled : list nat) :
  column gdf weight_column = Ok col ->
  sampled_indices w gdf n_hubs weight_column seed = Ok sampled ->
  Forall (fun i => exists a, col !! i = Some a /\ fillna (Fin 0) a <> Fin 0) sampled.
Proof.
  intros Hcol Hs. unfold sampled_indices in Hs.
  unfold default_rng_checked in Hs.
  destruct (bool_decide (seed < 0)%Z); [discriminate|].
  cbn [mbind result_bind] in Hs. rewrite Hcol in Hs. cbn [mbind result_bind] in Hs.
  destruct (choice w (default_rng seed) (index gdf) n_hubs (baseline_probabilities col))
    as [[idx g']|e] eqn:Hch; [|discriminate].
  cbn [mbind result_bind] in Hs. injection Hs as <-.
  destruct (choice_Ok _ _ _ _ _ _ Hch) as (Hne & Hfin & _ & Hneg).
  unfold index in Hch.
  apply choice_seq_Ok in Hch as (total & us & Hlast & Hlen & -> & Hidx & Hdraws).
  pose proof (kahan_sum_finite_entries _ _ Hne Hfin) as Hpfin.
  pose proof (cumsum_finite _ Hpfin) as Hcfin.
  set (p := baseline_probabilities col) in *.
  set (cdf := map (fun c => fdiv c total) (cumsum p)) in *.
  assert (Hplen : length p = length col).
  { unfold p, baseline_probabilities. by rewrite !length_map. }
  apply Forall_forall. intros i Hi.
  rewrite Forall_forall in Hidx. specialize (Hidx _ Hi).
  apply list_elem_of_In, in_map_iff in Hi. destruct Hi as (u & Hu & Hin).
  apply list_elem_of_In in Hin. rewrite Forall_forall in Hdraws.
  destruct (Hdraws _ Hin) as [k ->].
  assert (Hu0 : 0 <= draws (default_rng seed) k) by apply pcg64_range.
  set (u := draws (default_rng seed) k) in *.
  destruct (lookup_lt_is_Some_2 col i ltac:(lia)) as [a Ha].
  exists a. split; [done|]. intros Hzero.
  assert (Hp_i : p !! i = Some (Fin 0)).
  { unfold p, baseline_probabilities. cbv zeta.
    rewrite map_fmap, list_lookup_fmap, map_fmap, list_lookup_fmap, Ha.
    cbn [fmap option_fmap option_map]. rewrite Hzero. f_equal.
    apply fdiv_zero_weight.
    rewrite Forall_forall in Hpfin. apply Hpfin.
    unfold p, baseline_probabilities. cbv zeta.
    apply list_elem_of_In, in_map_iff. exists (Fin 0). split; [done|].
    apply in_map_iff. exists a. split; [done|].
    by apply list_elem_of_In, (list_elem_of_lookup_2 _ i). }
  assert (Hcdflen : length cdf = length p).
  { unfold cdf. by rewrite length_map, length_cumsum. }
  destruct (searchsorted_right_spec cdf (Fin u) i Hu ltac:(lia))
    as [(c & Hc & Hlt) Hbefore].
  unfold cdf in Hc. rewrite map_fmap, list_lookup_fmap in Hc.
  destruct i as [|j].
  - assert (Hc0 : cumsum p !! 0%nat = Some (Fin 0)).
    { destruct p as [|x l]; [done|]. cbn in Hp_i. by injection Hp_i as ->. }
    rewrite Hc0 in Hc.
    assert (Hceq : c = fdiv (Fin 0) total) by (by injection Hc). subst c.
    assert (Hq : fdiv (Fin 0) total = NaN \/ fdiv (Fin 0) total = Fin 0).
    { destruct total as [| | |T]; cbn [fdiv]; auto.
      destruct (Qceqb T 0); [by left|]. right. f_equal. apply Qcmult_0_l. }
    destruct Hq as [Hq|Hq]; rewrite Hq in Hlt; [done|].
    cbn [flt] in Hlt. apply Qcltb_lt in Hlt. by apply Qcle_not_lt in Hu0.
  - destruct (cumsum_lookup_S p j (Fin 0) Hp_i) as (prev & Hprev & Hcur).
    rewrite Hcur in Hc.
    assert (Hceq : c = fdiv (fadd prev (Fin 0)) total) by (by injection Hc). subst c.
    rewrite Forall_forall in Hcfin.
    destruct (isfinite_Fin prev (Hcfin _ (list_elem_of_lookup_2 _ _ _ Hprev))) as [q ->].
    cbn [fadd] in Hlt. rewrite Qcplus_0_r in Hlt.
    rewrite (Hbefore j (fdiv (Fin q) total)) in Hlt; [done|lia|].
    unfold cdf. by rewrite map_fmap, list_lookup_fmap, Hprev.
Qed.

End Baseline_draws.

Lemma zero_weight_rows_are_never_drawn_witness :
  exists sampled,
    sampled_indices ex_world ex_gdf 2 config.COL_TOTAL_VEHICLES 42 = Ok sampled
    /\ Forall (fun i => exists a, [of_Z 200; of_Z 600] !! i = Some a
                                  /\ fillna (Fin 0) a <> Fin 0) sampled.
Proof.
  destruct (sampled_indices ex_world ex_gdf 2 config.COL_TOTAL_VEHICLES 42)
    as [sampled|e] eqn:Hs; [|vm_compute in Hs; discriminate].
  exists sampled. split; [reflexivity|].
  by eapply (zero_weight_rows_are_never_drawn ex_world ex_gdf 2
               config.COL_TOTAL_VEHICLES 42 [of_Z 200; of_Z 600]).
Defined.

(** * Further properties of the simulation *)

Section Simulation_results.
Context `{RandomSources} `{KMeansModel}.

Lemma run_scenarios_lookup w gdf n_iterations seed n_hubs_list : forall acc results,
  run_scenarios w gdf n_iterations seed n_hubs_list acc = Ok results ->
  forall k s,
    results !! k = Some s
    <-> ((k ∈ n_hubs_list) /\ run_scenario w gdf n_iterations seed k = Ok s)
        \/ ((k ∉ n_hubs_list) /\ acc !! k = Some s).
Proof.
  induction n_hubs_list as [|k0 rest IH]; intros acc results Hrun k s.
  - injection Hrun as <-. rewrite elem_of_nil. tauto.
  - cbn [run_scenarios] in Hrun.
    destruct (run_scenario w gdf n_iterations seed k0) as [s0|e] eqn:Hs0; [|discriminate].
    cbn [mbind result_bind] in Hrun.
    rewrite (IH _ _ Hrun k s), elem_of_cons.
    destruct (decide (k = k0)) as [->|Hne].
    + rewrite lookup_insert_eq. split.
      * intros [[Hin Hk]|[Hnin [= <-]]]; left; auto.
      * intros [[_ Hk]|[Hnin _]]; [|tauto].
        destruct (decide (k0 ∈ rest)); [left; auto|right].
        split; [done|]. congruence.
    + rewrite lookup_insert_ne by done. tauto.
Qed.

(** X11: The result of a simulation has an entry for a hub count exactly
    when the count was requested, and the entry is the scenario computed
    for that count: repeated counts give one entry, and no scenario is
    reported under another count than its own. *)
Theorem results_are_indexed_by_hub_count (w : world) (gdf : GeoDataFrame)
    (n_hubs_list : option (list Z)) (n_iterations seed : Z)
    (results : gmap Z scenario) (k : Z) (s : scenario) :
  run_ab_simulation w gdf n_hubs_list n_iterations seed = Ok results ->
  results !! k = Some s
  <-> (k ∈ default config.SCENARIOS n_hubs_list)
      /\ run_scenario w gdf n_iterations seed k = Ok s.
Proof.
  intros Hrun. unfold run_ab_simulation in Hrun.
  rewrite (run_scenarios_lookup _ _ _ _ _ _ _ Hrun k s), lookup_empty.
  split; [|by left]. by intros [?|[_ ?]].
Qed.

Lemma run_scenarios_raises w gdf n_iterations seed n_hubs_list acc :
  n_hubs_list <> [] ->
  (forall k, raises (run_scenario w gdf n_iterations seed k)) ->
  raises (run_scenarios w gdf n_iterations seed n_hubs_list acc).
Proof.
  intros Hne Hall. destruct n_hubs_list as [|k rest]; [done|].
  cbn [run_scenarios]. by apply raises_bind.
Qed.

Lemma raises_bind_inner {A B} (m : result A) (f : A -> result B) :
  (forall a, raises (f a)) -> raises (m ≫= f).
Proof. intros Hf. destruct m; [apply Hf|done]. Qed.

Lemma raises_Raise {A} (r : result A) : raises r -> exists e, r = Raise e.
Proof. destruct r; [done|eauto]. Qed.

(** X12: With no baseline iteration there is no baseline to average: the
    simulation raises for every hub count, it reports nothing. *)
Theorem no_iteration_no_result (w : world) (gdf : GeoDataFrame)
    (n_hubs_list : option (list Z)) (n_iterations seed : Z) :
  (n_iterations <= 0)%Z ->
  default config.SCENARIOS n_hubs_list <> [] ->
  exists e, run_ab_simulation w gdf n_hubs_list n_iterations seed = Raise e.
Proof.
  intros Hn Hne. apply raises_Raise. unfold run_ab_simulation.
  apply run_scenarios_raises; [done|]. intros k. unfold run_scenario.
  apply raises_bind_inner. intros smart_locs.
  apply raises_bind_inner. intros smart_metrics.
  unfold range. replace (Z.to_nat n_iterations) with 0%nat by lia. done.
Qed.

Lemma baseline_raises_without_distribution w gdf n_hubs seed :
  (config.COL_TOTAL_VEHICLES ∉ columns gdf
   \/ exists col, column gdf config.COL_TOTAL_VEHICLES = Ok col
                  /\ np_sum (map (fillna (Fin 0)) col) = Fin 0) ->
  raises (generate_population_weighted_locations w gdf n_hubs
            config.COL_TOTAL_VEHICLES seed).
Proof.
  intros Hbad. unfold generate_population_weighted_locations.
  destruct (default_rng_checked seed) as [rng|e]; [|done].
  cbn [mbind result_bind]. destruct Hbad as [Hmiss|(col & Hcol & Hsum)].
  - unfold column. by rewrite bool_decide_eq_false_2.
  - rewrite Hcol. cbn [mbind result_bind].
    apply raises_bind. unfold baseline_probabilities. cbv zeta. rewrite Hsum.
    destruct (map (fillna (Fin 0)) col) as [|a weights].
    + apply choice_raises_empty.
    + apply choice_raises_nonfinite_sum. cbn [map kahan_sum].
      apply kahan_loop_nonfinite, fdiv_zero_nonfinite.
Qed.

(** X13: A table without vehicles column, or whose vehicle counts add up to
    zero, has no baseline: the simulation raises, whatever the number
    of iterations, and reports nothing, not even the smart placement. *)
Theorem no_vehicles_no_result (w : world) (gdf : GeoDataFrame)
    (n_hubs_list : option (list Z)) (n_iterations seed : Z) :
  (config.COL_TOTAL_VEHICLES ∉ columns gdf
   \/ exists col, column gdf config.COL_TOTAL_VEHICLES = Ok col
                  /\ np_sum (map (fillna (Fin 0)) col) = Fin 0) ->
  default config.SCENARIOS n_hubs_list <> [] ->
  exists e, run_ab_simulation w gdf n_hubs_list n_iterations seed = Raise e.
Proof.
  intros Hbad Hne. apply raises_Raise. unfold run_ab_simulation.
  apply run_scenarios_raises; [done|]. intros k. unfold run_scenario.
  apply raises_bind_inner. intros smart_locs.
  apply raises_bind_inner. intros smart_metrics.
  destruct (range n_iterations) as [|i rest]; [done|].
  apply raises_bind. cbn [baseline_runs].
  by apply raises_bind, baseline_raises_without_distribution.
Qed.


End Simulation_results.

Lemma results_are_indexed_by_hub_count_witness :
  exists results s,
    run_ab_simulation ex_world ex_gdf (Some (1 :: 1 :: nil)%Z) 2 42 = Ok results
    /\ run_scenario ex_world ex_gdf 2 42 1 = Ok s
    /\ results !! 1%Z = Some s.
Proof.
  destruct (run_scenario ex_world ex_gdf 2 42 1) as [s|e] eqn:Hs;
    [|vm_compute in Hs; discriminate].
  assert (Hrun : run_ab_simulation ex_world ex_gdf (Some (1 :: 1 :: nil)%Z) 2 42
                 = Ok (<[1%Z := s]> (<[1%Z := s]> ∅))).
  { unfold run_ab_simulation. cbn [default from_option id run_scenarios].
    by rewrite Hs. }
  eexists _, s. split; [exact Hrun|]. split; [reflexivity|].
  apply (results_are_indexed_by_hub_count _ _ _ _ _ _ 1 s Hrun).
  split; [|exact Hs]. apply list_elem_of_here.
Defined.

Lemma no_iteration_no_result_witness :
  exists e, run_ab_simulation ex_world ex_gdf None 0 42 = Raise e.
Proof. apply no_iteration_no_result; [lia|done]. Defined.

Lemma no_vehicles_no_result_witness :
  exists e, run_ab_simulation ex_world ex_gdf_zero None 300 42 = Raise e.
Proof.
  apply no_vehicles_no_result; [|done].
  right. exists [of_Z 0; of_Z 0]. split; reflexivity.
Defined.


(** * Further properties of the optimizer *)

Lemma clamp_negative_idempotent a : clamp_negative (clamp_negative a) = clamp_negative a.
Proof.
  destruct a as [| | |x]; try reflexivity. unfold clamp_negative. cbn [flt].
  destruct (Qcltb x 0) eqn:Hx; cbn [flt]; [by vm_compute|by rewrite Hx].
Qed.

Lemma clamp_negative_valid a : valid_weight a -> clamp_negative a = a.
Proof.
  intros (q & -> & Hq). unfold clamp_negative. cbn [flt].
  apply Qcltb_ge in Hq. by rewrite Hq.
Qed.

Lemma spec_weights_alt weights :
  spec_weights weights
  = if feq (np_sum (map clamp_negative weights)) (Fin 0)
    then map (fun _ => Fin 1) weights else map clamp_negative weights.
Proof.
  rewrite <- sanitize_weights_spec. unfold sanitize_weights, ones_like.
  assert (Hmap : map (fun a => maximum a (Fin 0)) weights = map clamp_negative weights).
  { apply map_ext. intros a. apply maximum_clamp. }
  rewrite Hmap. destruct (feq _ _); [by rewrite map_map|done].
Qed.

(** X15: Sanitising is idempotent, and weights that are non-negative numbers
    with a total other than zero reach KMeans as they are. *)
Theorem sanitize_weights_idempotent (weights : list fl) :
  sanitize_weights (sanitize_weights weights) = sanitize_weights weights
  /\ (Forall valid_weight weights -> np_sum weights <> Fin 0 ->
      sanitize_weights weights = weights).
Proof.
  assert (Hvalid : forall ws, Forall valid_weight ws -> np_sum ws <> Fin 0 ->
                              sanitize_weights ws = ws).
  { intros ws Hv Hsum. rewrite sanitize_weights_spec, spec_weights_alt.
    assert (Hid : map clamp_negative ws = ws).
    { rewrite <- (map_id ws) at 2. apply map_ext_in. intros a Ha.
      apply clamp_negative_valid. rewrite Forall_forall in Hv.
      by apply Hv, list_elem_of_In. }
    rewrite Hid. destruct (feq (np_sum ws) (Fin 0)) eqn:Hz; [|done].
    by apply feq_zero in Hz. }
  split; [|apply Hvalid].
  rewrite !sanitize_weights_spec. rewrite (spec_weights_alt weights).
  destruct (feq (np_sum (map clamp_negative weights)) (Fin 0)) eqn:Hz.
  - destruct weights as [|a weights]; [done|].
    rewrite <- sanitize_weights_spec. apply Hvalid.
    + apply Forall_forall. intros b Hb. apply list_elem_of_In, in_map_iff in Hb.
      destruct Hb as (c & <- & _). exists 1. split; [done|by compute].
    + by apply ones_sum_nonzero.
  - rewrite spec_weights_alt.
    assert (Hid : map clamp_negative (map clamp_negative weights)
                  = map clamp_negative weights).
    { rewrite map_map. apply map_ext. intros a. apply clamp_negative_idempotent. }
    by rewrite Hid, Hz.
Qed.

Lemma sanitize_weights_idempotent_witness :
  sanitize_weights [of_Z 3; of_Z 0; of_Z 1] = [of_Z 3; of_Z 0; of_Z 1].
Proof.
  apply (proj2 (sanitize_weights_idempotent [of_Z 3; of_Z 0; of_Z 1])).
  - repeat (constructor; [eexists; split; [reflexivity|by compute]|]). constructor.
  - by vm_compute.
Defined.

Section Smart_locations.
Context `{KMeansModel}.



(** X17: When no zone has a positive weight (every weight is missing, zero
    or negative), the smart locations are those of the unweighted
    clustering: KMeans is given the weight 1 for every zone. *)
Theorem smart_locations_without_demand (gdf : GeoDataFrame) (n_hubs : Z)
    (weight_column lat_column lng_column : string) (lat lng : list fl) :
  column gdf lat_column = Ok lat -> column gdf lng_column = Ok lng ->
  weight_column ∈ columns gdf ->
  Forall (fun z => cell weight_column z = NaN
                   \/ flt (Fin 0) (cell weight_column z) = false) (rows gdf) ->
  generate_smart_locations gdf n_hubs weight_column lat_column lng_column
  = (centers ← KMeans_fit (zip lat lng) (map (fun _ => Fin 1) (rows gdf))
                 (Z.min n_hubs (Z.of_nat (length (zip lat lng))))
                 config.KMEANS_RANDOM_STATE config.KMEANS_N_INIT;
     Ok (Mat centers)).
Proof.
  intros Hlat Hlng Hw Hcells. unfold generate_smart_locations.
  rewrite Hlat, Hlng. cbn [mbind result_bind].
  unfold column. rewrite bool_decide_eq_true_2 by done. cbn [mbind result_bind].
  rewrite weighted_kmeans_optimization_unfold.
  set (weights := map (fillna (Fin 0)) (map (cell weight_column) (rows gdf))).
  assert (Hones : spec_weights weights = map (fun _ => Fin 1) (rows gdf)).
  { unfold spec_weights. rewrite decide_True.
    - unfold weights. by rewrite !map_map.
    - apply Forall_forall. intros a Ha. apply list_elem_of_In, in_map_iff in Ha.
      destruct Ha as (b & <- & Hb). unfold weights in Hb. rewrite map_map in Hb.
      apply in_map_iff in Hb. destruct Hb as (z & <- & Hz).
      rewrite Forall_forall in Hcells.
      destruct (Hcells z (proj2 (list_elem_of_In _ _) Hz)) as [-> | Hnp]; [done|].
      destruct (cell weight_column z) as [| | |x]; try done.
      unfold clamp_negative. cbn [fillna isnan flt] in *.
      destruct (Qcltb x 0) eqn:Hx; [done|]. qc_bool. f_equal.
      by apply Qcle_antisym. }
  by rewrite Hones.
Qed.

End Smart_locations.


Lemma smart_locations_without_demand_witness :
  generate_smart_locations ex_gdf_zero 1 config.COL_UNMET_DEMAND "lat" "lng"
  = (centers ← KMeans_fit (zip [Fin (qc 414 10); Fin (qc 4141 100)]
                               [Fin (qc 215 100); Fin (qc 217 100)])
                 (map (fun _ => Fin 1) (rows ex_gdf_zero))
                 (Z.min 1 (Z.of_nat (length (zip [Fin (qc 414 10); Fin (qc 4141 100)]
                                                 [Fin (qc 215 100); Fin (qc 217 100)]))))
                 config.KMEANS_RANDOM_STATE config.KMEANS_N_INIT;
     Ok (Mat centers)).
Proof.
  apply smart_locations_without_demand.
  - reflexivity.
  - reflexivity.
  - by vm_compute.
  - repeat (constructor; [right; reflexivity|]). constructor.
Defined.

(** * Properties of the preprocessing *)

Lemma cell_insert_eq c v g cs : cell c {| geometry := g; cells := <[c := v]> cs |} = v.
Proof. unfold cell. cbn [cells]. by rewrite lookup_insert_eq. Qed.

Lemma cell_insert_ne c c' v g cs :
  c <> c' -> cell c' {| geometry := g; cells := <[c := v]> cs |}
             = cell c' {| geometry := g; cells := cs |}.
Proof. intros Hne. unfold cell. cbn [cells]. by rewrite lookup_insert_ne. Qed.

Lemma set_column_rows c (rs : list zone) : forall values,
  length values = length rs ->
  map (cell c) (zip_with (fun z v => {| geometry := geometry z;
                                        cells := <[c := v]> (cells z) |}) rs values)
  = values
  /\ map geometry (zip_with (fun z v => {| geometry := geometry z;
                                           cells := <[c := v]> (cells z) |}) rs values)
     = map geometry rs
  /\ forall c', c <> c' ->
       map (cell c') (zip_with (fun z v => {| geometry := geometry z;
                                              cells := <[c := v]> (cells z) |}) rs values)
       = map (cell c') rs.
Proof.
  induction rs as [|z rs IH]; intros values Hlen.
  - destruct values; [done|discriminate].
  - destruct values as [|v values]; [discriminate|].
    injection Hlen as Hlen. destruct (IH values Hlen) as (H1 & H2 & H3).
    cbn [zip_with map]. rewrite H1, H2, cell_insert_eq. repeat split.
    intros c' Hne. rewrite (H3 c' Hne), cell_insert_ne by done.
    by destruct z.
Qed.

(** Assigning a column: the frame keeps its rows' geometry and its other
    columns, and reads back the values assigned. *)
Lemma set_column_Ok c values df df' :
  set_column c values df = Ok df' ->
  length values = length (rows df)
  /\ columns df' = {[c]} ∪ columns df
  /\ column df' c = Ok values
  /\ map geometry (rows df') = map geometry (rows df)
  /\ forall c', c <> c' -> column df' c' = column df c'.
Proof.
  unfold set_column. case_bool_decide as Hlen; [|discriminate]. intros [= <-].
  destruct (set_column_rows c (rows df) values Hlen) as (H1 & H2 & H3).
  split; [done|]. split; [done|]. split; [|split; [done|]].
  - unfold column. cbn [columns rows]. rewrite bool_decide_eq_true_2 by set_solver.
    by rewrite H1.
  - intros c' Hne. unfold column. cbn [columns rows].
    assert (Hin : bool_decide (c' ∈ ({[c]} : gset string) ∪ columns df)
                  = bool_decide (c' ∈ columns df)).
    { apply bool_decide_ext. rewrite elem_of_union, elem_of_singleton.
      split; [intros [?|?]; [congruence|done]|by right]. }
    rewrite Hin. by rewrite (H3 c' Hne).
Qed.

Lemma all_finite_map l :
  Forall (fun a => isfinite a = true) l -> exists qs, l = map Fin qs.
Proof.
  induction 1 as [|a l Ha _ [qs ->]]; [by exists []|].
  destruct (isfinite_Fin _ Ha) as [q ->]. by exists (q :: qs).
Qed.

Lemma fold_minimum_spec r : forall x,
  exists m, foldl minimum (Fin x) (map Fin r) = Fin m
            /\ (forall y, y ∈ x :: r -> m <= y) /\ m ∈ x :: r.
Proof.
  induction r as [|y r IH]; intros x.
  - exists x. split; [done|]. split; [|apply list_elem_of_here].
    intros y Hy. apply list_elem_of_singleton in Hy as ->. apply Qcle_refl.
  - cbn [map foldl minimum flt]. destruct (Qcltb y x) eqn:Hyx; qc_bool.
    + destruct (IH y) as (m & Hm & Hle & Hin). exists m. split; [done|]. split.
      * intros z Hz. apply elem_of_cons in Hz as [->|Hz]; [|by apply Hle].
        eapply Qcle_trans; [apply Hle, list_elem_of_here|by apply Qclt_le_weak].
      * by apply list_elem_of_further.
    + destruct (IH x) as (m & Hm & Hle & Hin). exists m. split; [done|]. split.
      * intros z Hz. rewrite !elem_of_cons in Hz. destruct Hz as [->|[->|Hz]].
        -- apply Hle, list_elem_of_here.
        -- eapply Qcle_trans; [apply Hle, list_elem_of_here|done].
        -- by apply Hle, list_elem_of_further.
      * rewrite !elem_of_cons. apply elem_of_cons in Hin as [->|Hin]; auto.
Qed.

Lemma fold_maximum_spec r : forall x,
  exists m, foldl maximum (Fin x) (map Fin r) = Fin m
            /\ (forall y, y ∈ x :: r -> y <= m) /\ m ∈ x :: r.
Proof.
  induction r as [|y r IH]; intros x.
  - exists x. split; [done|]. split; [|apply list_elem_of_here].
    intros y Hy. apply list_elem_of_singleton in Hy as ->. apply Qcle_refl.
  - cbn [map foldl maximum flt]. destruct (Qcltb x y) eqn:Hxy; qc_bool.
    + destruct (IH y) as (m & Hm & Hle & Hin). exists m. split; [done|]. split.
      * intros z Hz. apply elem_of_cons in Hz as [->|Hz]; [|by apply Hle].
        eapply Qcle_trans; [by apply Qclt_le_weak|apply Hle, list_elem_of_here].
      * by apply list_elem_of_further.
    + destruct (IH x) as (m & Hm & Hle & Hin). exists m. split; [done|]. split.
      * intros z Hz. rewrite !elem_of_cons in Hz. destruct Hz as [->|[->|Hz]].
        -- apply Hle, list_elem_of_here.
        -- eapply Qcle_trans; [done|apply Hle, list_elem_of_here].
        -- by apply Hle, list_elem_of_further.
      * rewrite !elem_of_cons. apply elem_of_cons in Hin as [->|Hin]; auto.
Qed.

Lemma filter_notnan_Fin qs :
  filter (fun a => isnan a = false) (map Fin qs) = map Fin qs.
Proof.
  induction qs as [|q qs IH]; [done|]. cbn [map].
  by rewrite filter_notnan_fin, IH.
Qed.

Lemma minmax_formula (x m R : Qc) :
  R <> 0 -> x * ((1 + - 0) / R) + (0 + - (m * ((1 + - 0) / R))) = (x + - m) / R.
Proof. intros HR. field. done. Qed.

(** The scaler on a column of numbers: the scaled column, its bounds,
    and what it makes of the extremes. *)
Lemma MinMaxScaler_numbers (qs : list Qc) (Y : list fl) :
  MinMaxScaler_fit_transform (map Fin qs) = Ok Y ->
  exists m M R,
    (forall y, y ∈ qs -> m <= y /\ y <= M) /\ m ∈ qs /\ M ∈ qs
    /\ 0 < R /\ (R = M + - m \/ (R = 1 /\ M + - m < ten_eps))
    /\ Y = map (fun x => Fin ((x + - m) / R)) qs.
Proof.
  unfold MinMaxScaler_fit_transform. case_bool_decide as Hlen; [discriminate|].
  destruct (existsb isinf (map Fin qs)); [discriminate|].
  unfold nanmin, nanmax. rewrite filter_notnan_Fin.
  destruct qs as [|x r]; [done|]. cbn [map].
  destruct (fold_minimum_spec r x) as (m & Hm & Hmle & Hmin).
  destruct (fold_maximum_spec r x) as (M & HM & HMle & HMin).
  rewrite Hm, HM. cbn [fsub fadd fneg]. unfold handle_zeros_in_scale. cbn [flt].
  assert (Hten : 0 < ten_eps) by by compute.
  assert (Hone : ten_eps <= 1) by by compute.
  assert (Hb : forall y, y ∈ x :: r -> m <= y /\ y <= M) by (split; auto).
  destruct (Qcltb (M + - m) ten_eps) eqn:Hsmall; qc_bool.
  - intros [= <-]. exists m, M, 1.
    split; [exact Hb|]. split; [exact Hmin|]. split; [exact HMin|].
    split; [by compute|]. split; [by right|].
    cbn [fdiv]. replace (Qceqb 1 0) with false by by vm_compute.
    change (Fin x :: map Fin r) with (map Fin (x :: r)).
    rewrite map_map. cbn [map fmul fadd fneg].
    assert (H1 : (1 : Qc) <> 0) by by compute.
    f_equal; [f_equal; by apply minmax_formula|].
    apply map_ext. intros y. f_equal. by apply minmax_formula.
  - assert (HR : 0 < M + - m) by by eapply Qclt_le_trans.
    intros [= <-]. exists m, M, (M + - m).
    split; [exact Hb|]. split; [exact Hmin|]. split; [exact HMin|].
    split; [exact HR|]. split; [by left|].
    cbn [fdiv]. rewrite Qcltb_irrefl_pos by done.
    change (Fin x :: map Fin r) with (map Fin (x :: r)).
    rewrite map_map. cbn [map fmul fadd fneg].
    assert (H1 : M + - m <> 0).
    { intros Hz. rewrite Hz in HR. by apply (Qclt_not_eq 0 0). }
    f_equal; [f_equal; by apply minmax_formula|].
    apply map_ext. intros y. f_equal. by apply minmax_formula.
Qed.

Lemma MinMaxScaler_finite X Y :
  MinMaxScaler_fit_transform X = Ok Y ->
  Forall (fun a => isnan a = false) X -> exists qs, X = map Fin qs.
Proof.
  unfold MinMaxScaler_fit_transform. case_bool_decide; [discriminate|].
  destruct (existsb isinf X) eqn:Hinf; [discriminate|]. intros _ Hnan.
  apply all_finite_map, Forall_forall. intros a Ha.
  rewrite Forall_forall in Hnan. specialize (Hnan a Ha).
  destruct a as [| | |q]; try done;
    by rewrite (existsb_elem isinf X _ Ha) in Hinf.
Qed.

Lemma fillna_column_not_nan l :
  Forall (fun a => isnan a = false) (map (fillna (Fin 0)) l).
Proof. induction l as [|a l IH]; constructor; [by destruct a|done]. Qed.

(** What a successful [normalize_column] did: the source column exists,
    its cells with NaN as 0 are numbers [qs] between [m] and [M], and the
    output column holds [(x - m) / R], where [R] is the range [M - m], or
    1 for a range under [10 * eps]. *)
Lemma normalize_column_Ok df col o df' :
  normalize_column df col o = Ok df' ->
  exists qs m M R,
    map (fillna (Fin 0)) (map (cell col) (rows df)) = map Fin qs
    /\ col ∈ columns df
    /\ (forall y, y ∈ qs -> m <= y /\ y <= M) /\ m ∈ qs /\ M ∈ qs
    /\ 0 < R /\ (R = M + - m \/ (R = 1 /\ M + - m < ten_eps))
    /\ set_column (default ("Norm_" +:+ col) o)
         (map (fun x => Fin ((x + - m) / R)) qs) df = Ok df'.
Proof.
  unfold normalize_column. cbv zeta. unfold column.
  case_bool_decide as Hcol; [|discriminate]. cbn [mbind result_bind].
  destruct (MinMaxScaler_fit_transform _) as [scaled|e] eqn:HS; [|discriminate].
  cbn [mbind result_bind]. intros Hset.
  destruct (MinMaxScaler_finite _ _ HS (fillna_column_not_nan _)) as [qs Hqs].
  rewrite Hqs in HS.
  destruct (MinMaxScaler_numbers _ _ HS) as (m & M & R & Hb & Hm & HM & HR & HRd & ->).
  by exists qs, m, M, R.
Qed.

Lemma Forall_cells (P : fl -> Prop) c gdf col :
  column gdf c = Ok col -> Forall P col -> Forall (fun z => P (cell c z)) (rows gdf).
Proof.
  intros Hc Hcol. apply column_Ok in Hc. subst col.
  induction (rows gdf) as [|z l IH]; [constructor|].
  inversion Hcol; subst. constructor; auto.
Qed.


Lemma scaled_unit_interval (x m M R : Qc) :
  m <= x -> x <= M -> 0 < R -> (R = M + - m \/ (R = 1 /\ M + - m < ten_eps)) ->
  unit_interval (Fin ((x + - m) / R)).
Proof.
  intros Hm HM HR HRd. eexists. split; [reflexivity|].
  assert (H0 : 0 <= x + - m) by by apply Qcle_minus_iff in Hm.
  assert (H1 : x + - m <= M + - m) by by apply Qcplus_le_compat; [|apply Qcle_refl].
  split; [by apply Qcdiv_nonneg|]. apply Qcdiv_le_one; [done|].
  destruct HRd as [->|[-> Hsmall]]; [done|].
  eapply Qcle_trans; [exact H1|]. apply Qclt_le_weak.
  eapply Qclt_le_trans; [exact Hsmall|]. by compute.
Qed.

Lemma scaled_minimum (m R : Qc) : Fin ((m + - m) / R) = Fin 0.
Proof. f_equal. rewrite Qcplus_opp_r. unfold Qcdiv. ring. Qed.

(** The normalised column of a successful [normalize_column]: its cells. *)
Lemma normalize_column_cells df col o df' :
  normalize_column df col o = Ok df' ->
  exists scaled,
    column df' (default ("Norm_" +:+ col) o) = Ok scaled
    /\ length scaled = length (rows df)
    /\ Forall unit_interval scaled
    /\ Exists (fun a => a = Fin 0) scaled
    /\ columns df' = {[default ("Norm_" +:+ col) o]} ∪ columns df
    /\ map geometry (rows df') = map geometry (rows df)
    /\ forall c', default ("Norm_" +:+ col) o <> c' -> column df' c' = column df c'.
Proof.
  intros Hn.
  destruct (normalize_column_Ok _ _ _ _ Hn)
    as (qs & m & M & R & Hqs & Hcol & Hb & Hm & HM & HR & HRd & Hset).
  destruct (set_column_Ok _ _ _ _ Hset) as (Hlen & Hcols & Hout & Hgeo & Hother).
  eexists. split; [exact Hout|]. split; [exact Hlen|].
  split; [|split; [|by repeat split]].
  - apply Forall_forall. intros a Ha. apply list_elem_of_fmap in Ha as (x & -> & Hx).
    destruct (Hb x Hx). by eapply scaled_unit_interval.
  - apply Exists_exists. exists (Fin ((m + - m) / R)). split; [|apply scaled_minimum].
    apply (list_elem_of_fmap_2 (fun x => Fin ((x + - m) / R))) in Hm. exact Hm.
Qed.



(** X19 ([normalize_column], lines 219-223).  A column whose cells are
    all the same value (NaN counting as 0) has no range to scale by: the
    scaler divides by 1 instead, and the normalised column is 0 in every
    row. *)
Theorem constant_column_normalises_to_zero (df df' : GeoDataFrame)
    (col : string) (output_column : option string) :
  normalize_column df col output_column = Ok df' ->
  (forall z z', z ∈ rows df -> z' ∈ rows df ->
     fillna (Fin 0) (cell col z) = fillna (Fin 0) (cell col z')) ->
  Forall (fun z => cell (default ("Norm_" +:+ col) output_column) z = Fin 0) (rows df').
Proof.
  intros Hn Hconst.
  destruct (normalize_column_Ok _ _ _ _ Hn)
    as (qs & m & M & R & Hqs & Hcol & Hb & Hm & HM & HR & HRd & Hset).
  destruct (set_column_Ok _ _ _ _ Hset) as (Hlen & Hcols & Hout & Hgeo & Hother).
  eapply (Forall_cells (fun a => a = Fin 0)); [exact Hout|].
  assert (Hsrc : forall x, x ∈ qs ->
            exists z, z ∈ rows df /\ Fin x = fillna (Fin 0) (cell col z)).
  { intros x Hx. apply (list_elem_of_fmap_2 Fin) in Hx.
    rewrite <- map_fmap, <- Hqs, map_map, map_fmap in Hx.
    apply list_elem_of_fmap in Hx as (z & Hz & Hin). eauto. }
  apply Forall_forall. intros a Ha. apply list_elem_of_fmap in Ha as (x & -> & Hx).
  destruct (Hsrc x Hx) as (z & Hz & Hxz). destruct (Hsrc m Hm) as (z' & Hz' & Hmz).
  assert (Hxm : x = m).
  { assert (Heq : Fin x = Fin m) by (rewrite Hxz, Hmz; by apply Hconst).
    by injection Heq. }
  subst x. apply scaled_minimum.
Qed.

Lemma constant_column_normalises_to_zero_witness :
  exists df',
    normalize_column ex_gdf_zero config.COL_UNMET_DEMAND None = Ok df'
    /\ Forall (fun z => cell "Norm_Unmet_Demand" z = Fin 0) (rows df').
Proof.
  destruct (normalize_column ex_gdf_zero config.COL_UNMET_DEMAND None)
    as [df'|e] eqn:Hn; [|vm_compute in Hn; discriminate].
  exists df'. split; [reflexivity|].
  apply (constant_column_normalises_to_zero _ _ _ _ Hn).
  intros z z' Hz Hz'.
  assert (Hall : Forall (fun z => fillna (Fin 0) (cell config.COL_UNMET_DEMAND z) = Fin 0)
                        (rows ex_gdf_zero)).
  { repeat constructor. }
  rewrite Forall_forall in Hall. by rewrite (Hall z Hz), (Hall z' Hz').
Defined.

Lemma existsb_isinf_fillna (rs : list zone) col :
  existsb isinf (map (fillna (Fin 0)) (map (cell col) rs)) = false
  <-> Forall (fun z => isinf (cell col z) = false) rs.
Proof.
  induction rs as [|z rs IH]; [by split; [constructor|]|].
  cbn [map existsb]. rewrite orb_false_iff, IH, Forall_cons.
  assert (Hz : isinf (fillna (Fin 0) (cell col z)) = isinf (cell col z))
    by by destruct (cell col z).
  by rewrite Hz.
Qed.

(** X20 ([normalize_column], lines 219-223).  [normalize_column] returns
    exactly when the column exists, the frame has at least one row, and
    no cell of the column is infinite; a missing cell (NaN) never makes
    it fail. *)
Theorem normalize_column_succeeds_iff (df : GeoDataFrame) (col : string)
    (output_column : option string) :
  (exists df', normalize_column df col output_column = Ok df')
  <-> col ∈ columns df /\ rows df <> []
      /\ Forall (fun z => isinf (cell col z) = false) (rows df).
Proof.
  unfold normalize_column. cbv zeta. unfold column. split.
  - intros [df' Hn]. case_bool_decide as Hcol; [|discriminate].
    cbn [mbind result_bind] in Hn. unfold MinMaxScaler_fit_transform in Hn.
    case_bool_decide as Hlen; [discriminate|].
    destruct (existsb isinf _) eqn:Hinf; [discriminate|].
    split; [done|]. split; [|by apply existsb_isinf_fillna].
    intros Hnil. apply Hlen. by rewrite Hnil.
  - intros (Hcol & Hrows & Hinf). rewrite bool_decide_eq_true_2 by done.
    cbn [mbind result_bind]. unfold MinMaxScaler_fit_transform.
    rewrite bool_decide_eq_false_2.
    2:{ rewrite !length_map. by destruct (rows df). }
    apply existsb_isinf_fillna in Hinf. rewrite Hinf. cbn [mbind result_bind].
    unfold set_column. rewrite bool_decide_eq_true_2 by by rewrite !length_map.
    eauto.
Qed.






Lemma Forall2_cells (P : fl -> fl -> Prop) (f g : zone -> fl) (l : list zone) :
  Forall2 P (map f l) (map g l) -> Forall (fun z => P (f z) (g z)) l.
Proof.
  induction l as [|z l IH]; [constructor|]. cbn [map]. intros H.
  inversion H; subst. constructor; auto.
Qed.

Lemma clamp_negative_not_negative a : flt (clamp_negative a) (Fin 0) = false.
Proof.
  destruct a as [| | |x]; try done. unfold clamp_negative. cbn [flt].
  destruct (Qcltb x 0) eqn:Hx; cbn [flt]; [done|by rewrite Hx].
Qed.

(** What a successful [calculate_unmet_demand] did: the supply column
    [supply] is a column of numbers between 0 and 1, as long as the
    demand column [demand] the frame came with, and the unmet demand is
    the clamped difference, row by row. *)
Lemma calculate_unmet_demand_Ok gdf gdf' impact :
  calculate_unmet_demand gdf impact = Ok gdf' ->
  exists demand supply,
    column gdf config.COL_DEMAND_SCORE = Ok demand
    /\ column gdf' config.COL_DEMAND_SCORE = Ok demand
    /\ length supply = length demand
    /\ Forall unit_interval supply
    /\ column gdf' config.COL_UNMET_DEMAND
       = Ok (map clamp_negative
               (zip_with (fun d s => fsub d (fmul s (Fin impact))) demand supply))
    /\ map geometry (rows gdf') = map geometry (rows gdf).
Proof.
  unfold calculate_unmet_demand. intros Hc.
  destruct (normalize_column gdf _ _) as [g1|] eqn:Hn1; [|discriminate].
  cbn [mbind result_bind] in Hc.
  destruct (normalize_column_cells _ _ _ _ Hn1)
    as (supply & Ho1 & Hl1 & Hu1 & _ & _ & Hg1 & Hk1).
  cbn [default from_option id] in Ho1, Hk1.
  destruct (column g1 config.COL_DEMAND_SCORE) as [demand|] eqn:Hd; [|discriminate].
  cbn [mbind result_bind] in Hc. rewrite Ho1 in Hc. cbn [mbind result_bind] in Hc.
  destruct (set_column_Ok _ _ _ _ Hc) as (Hlen & Hcols & Hout & Hgeo & Hother).
  exists demand, supply.
  split; [by rewrite <- Hk1|]. split; [by rewrite Hother|].
  split.
  { rewrite Hl1. apply column_Ok in Hd. rewrite Hd, length_map.
    apply (f_equal (@length _)) in Hg1. by rewrite !length_map in Hg1. }
  split; [done|]. split; [|by rewrite Hgeo].
  rewrite Hout. f_equal. apply map_ext. intros a. apply maximum_clamp.
Qed.

(** X22 ([calculate_unmet_demand], lines 265-289, with
    [weighted_kmeans_optimization], lines 42-47).  No unmet demand the
    function writes is negative, whatever the demand scores, the charger
    counts and the supply impact are.  The optimiser's clamp of negative
    weights therefore leaves the column as it is: the weights it hands
    to KMeans are the column itself, or all ones when the column sums to
    zero. *)
Theorem unmet_demand_is_never_negative (gdf gdf' : GeoDataFrame)
    (supply_impact : Qc) (unmet : list fl) :
  calculate_unmet_demand gdf supply_impact = Ok gdf' ->
  column gdf' config.COL_UNMET_DEMAND = Ok unmet ->
  Forall (fun a => flt a (Fin 0) = false) unmet
  /\ length unmet = length (rows gdf)
  /\ sanitize_weights unmet
     = if feq (np_sum unmet) (Fin 0) then map (fun _ => Fin 1) unmet else unmet.
Proof.
  intros Hc Hu.
  destruct (calculate_unmet_demand_Ok _ _ _ Hc)
    as (demand & supply & Hd & Hd' & Hlen & Hsup & Hout & Hgeo).
  rewrite Hout in Hu. injection Hu as <-.
  assert (Hid : map clamp_negative
                  (map clamp_negative
                     (zip_with (fun d s => fsub d (fmul s (Fin supply_impact))) demand supply))
                = map clamp_negative
                    (zip_with (fun d s => fsub d (fmul s (Fin supply_impact))) demand supply)).
  { rewrite map_map. apply map_ext. intros a. apply clamp_negative_idempotent. }
  split; [|split].
  - apply Forall_forall. intros a Ha. apply list_elem_of_fmap in Ha as (b & -> & _).
    apply clamp_negative_not_negative.
  - rewrite length_map, length_zip_with, Hlen, Nat.min_id.
    apply column_Ok in Hd. by rewrite Hd, length_map.
  - by rewrite sanitize_weights_spec, spec_weights_alt, Hid.
Qed.

Lemma unmet_demand_is_never_negative_witness :
  exists gdf' unmet,
    calculate_unmet_demand ex_scored_gdf config_demand.SUPPLY_IMPACT = Ok gdf'
    /\ column gdf' config.COL_UNMET_DEMAND = Ok unmet
    /\ Forall (fun a => flt a (Fin 0) = false) unmet
    /\ length unmet = length (rows ex_scored_gdf)
    /\ sanitize_weights unmet
       = if feq (np_sum unmet) (Fin 0) then map (fun _ => Fin 1) unmet else unmet.
Proof.
  destruct (calculate_unmet_demand ex_scored_gdf config_demand.SUPPLY_IMPACT)
    as [gdf'|e] eqn:Hc.
  2:{ vm_compute in Hc. discriminate. }
  destruct (column gdf' config.COL_UNMET_DEMAND) as [unmet|e] eqn:Hu.
  - exists gdf', unmet. split; [reflexivity|]. split; [exact Hu|].
    exact (unmet_demand_is_never_negative _ _ _ _ Hc Hu).
  - destruct (calculate_unmet_demand_Ok _ _ _ Hc) as (? & ? & _ & _ & _ & _ & Hout & _).
    rewrite Hout in Hu. discriminate.
Defined.

Lemma unmet_row (impact x y : Qc) :
  0 <= impact -> 0 <= x -> 0 <= y ->
  exists q, clamp_negative (fsub (Fin x) (fmul (Fin y) (Fin impact))) = Fin q
            /\ 0 <= q /\ q <= x.
Proof.
  intros Hi Hx Hy. cbn [fsub fmul fneg fadd]. unfold clamp_negative. cbn [flt].
  destruct (Qcltb (x + - (y * impact)) 0) eqn:Hneg; qc_bool.
  - exists 0. split; [done|]. split; [apply Qcle_refl|done].
  - eexists. split; [reflexivity|]. split; [done|].
    apply Qcle_minus_iff. replace (x + - (x + - (y * impact))) with (y * impact) by ring.
    by apply Qcmult_nonneg_nonneg.
Qed.

Lemma unmet_rows (impact : Qc) (demand : list fl) :
  0 <= impact -> Forall valid_weight demand ->
  forall supply, Forall unit_interval supply -> length supply = length demand ->
  Forall2 (fun a b => valid_weight a /\ fle a b)
    (map clamp_negative (zip_with (fun d s => fsub d (fmul s (Fin impact))) demand supply))
    demand.
Proof.
  intros Hi Hd. induction Hd as [|d demand (x & -> & Hx) _ IH]; intros supply Hs Hlen.
  - destruct supply; [constructor|discriminate].
  - destruct supply as [|s supply]; [discriminate|].
    inversion Hs as [|? ? (y & -> & Hy & _) Hs']; subst. injection Hlen as Hlen.
    cbn [zip_with map]. constructor; [|by apply IH].
    destruct (unmet_row impact x y Hi Hx Hy) as (q & -> & Hq0 & Hqx).
    split; [by exists q|by exists q, x].
Qed.

(** X23 ([calculate_unmet_demand], lines 281-287).  With a supply impact
    that is not negative and demand scores that are numbers not below
    zero, every unmet demand is a number not below zero and not above
    the demand score of its row: supply only ever lowers the weight of a
    zone. *)
Theorem unmet_demand_is_at_most_demand (gdf gdf' : GeoDataFrame) (supply_impact : Qc) :
  calculate_unmet_demand gdf supply_impact = Ok gdf' ->
  0 <= supply_impact ->
  Forall (fun z => valid_weight (cell config.COL_DEMAND_SCORE z)) (rows gdf) ->
  Forall (fun z => valid_weight (cell config.COL_UNMET_DEMAND z)
                   /\ fle (cell config.COL_UNMET_DEMAND z) (cell config.COL_DEMAND_SCORE z))
         (rows gdf').
Proof.
  intros Hc Hi Hvalid.
  destruct (calculate_unmet_demand_Ok _ _ _ Hc)
    as (demand & supply & Hd & Hd' & Hlen & Hsup & Hout & Hgeo).
  apply column_Ok in Hd, Hd', Hout.
  apply (Forall2_cells (fun a b => valid_weight a /\ fle a b)).
  rewrite <- Hout, <- Hd'. apply unmet_rows; try done.
  rewrite Hd. clear -Hvalid. induction Hvalid; by constructor.
Qed.

Lemma unmet_demand_is_at_most_demand_witness :
  exists gdf',
    calculate_unmet_demand ex_scored_gdf config_demand.SUPPLY_IMPACT = Ok gdf'
    /\ Forall (fun z => valid_weight (cell config.COL_UNMET_DEMAND z)
                        /\ fle (cell config.COL_UNMET_DEMAND z)
                               (cell config.COL_DEMAND_SCORE z))
              (rows gdf').
Proof.
  destruct (calculate_unmet_demand ex_scored_gdf config_demand.SUPPLY_IMPACT)
    as [gdf'|e] eqn:Hc; [|vm_compute in Hc; discriminate].
  exists gdf'. split; [reflexivity|].
  apply (unmet_demand_is_at_most_demand _ _ _ Hc); [by compute|].
  repeat (constructor; [eexists; split; [vm_compute; reflexivity|by compute]|]).
  constructor.
Defined.



Lemma normalize_column_succeeds_iff_witness :
  exists df', normalize_column ex_raw_gdf config_demand.COL_EV_COUNT None = Ok df'.
Proof.
  apply normalize_column_succeeds_iff. split; [by vm_compute|]. split; [done|].
  repeat constructor.
Defined.
